(** * The query builder of the plain framework (pf_db::query::Builder)

    A shallow embedding of [framework/core/src/db/query/builder.cc] and of the
    inline members of [pf_db::Grammar] that the builder's contract relies on.
    The builder is a mutable C++ object; here every member function takes the
    builder state and returns the new one.  [AssertEx(false, ...)] is fatal in
    the framework and is the [AssertEx] outcome of the [result] monad. *)

From stdpp Require Import gmap strings pretty list fin_maps sorting.
From Stdlib Require Import ZArith.

#[local] Open Scope Z_scope.
#[local] Set Warnings "-register-all".

(** ** Values (pf_basic::type::variable_t) *)

(** The type tags the builder names.  [DB_EXPRESSION_TYPE] is the tag the
    builder casts into [var_t] to mark a raw expression. *)
Inductive var_t : Set :=
  | kVariableTypeInvalid
  | kVariableTypeBool
  | kVariableTypeInt32
  | kVariableTypeDouble
  | kVariableTypeString
  | DB_EXPRESSION_TYPE.

#[global] Instance var_t_eq_dec : EqDecision var_t.
Proof. solve_decision. Defined.

(** A value is a type tag and its text, as the builder uses it
    ([rval.type], [oper.data]). *)
Record variable_t : Set := { type : var_t; data : string }.

#[global] Instance variable_t_eq_dec : EqDecision variable_t.
Proof. solve_decision. Defined.

(** A default-constructed value, and what the constructor leaves in [lock_]
    ([lock_ = ""; lock_.type = kVariableTypeInvalid]). *)
Definition variable_unset : variable_t :=
  {| type := kVariableTypeInvalid; data := "" |}.

#[global] Instance variable_t_inhabited : Inhabited variable_t :=
  populate variable_unset.

(** The converting constructors of [variable_t] that the builder's implicit
    conversions go through. *)
Definition variable_of_string (s : string) : variable_t :=
  {| type := kVariableTypeString; data := s |}.

Definition variable_of_bool (x : bool) : variable_t :=
  {| type := kVariableTypeBool; data := if x then "1" else "0" |}.

Definition variable_of_int32 (z : Z) : variable_t :=
  {| type := kVariableTypeInt32; data := pretty z |}.

(** [val == "..."]: a value compared with a literal compares the text. *)
Definition var_eq (v : variable_t) (s : string) : bool :=
  bool_decide (data v = s).

(** Modelled from the spec: [is_expression] is declared outside this file's
    sources; a raw expression is a value tagged as such (the builder makes one
    by setting [rval.type] to [DB_EXPRESSION_TYPE]). *)
Definition is_expression (v : variable_t) : bool :=
  bool_decide (type v = DB_EXPRESSION_TYPE).

Module pf_support.

(** Modelled from the spec: [pf_support::empty] on a value is declared in
    pf/support/helpers.h, which is not among the sources.  Emptiness is
    type-aware: an unset value and an empty text are empty, the integer zero
    (text "0") is not. *)
Definition empty (v : variable_t) : bool :=
  bool_decide (data v = "").

(** [in_array(needle, haystack)] on texts. *)
Definition in_array (needle : string) (haystack : list string) : bool :=
  bool_decide (needle ∈ haystack).

(** [contains(str, {needle})]: the needle occurs in the text. *)
Definition contains (str needle : string) : bool :=
  match String.index 0 needle str with
  | Some _ => true
  | None => false
  end.

(** [implode(glue, values)]. *)
Definition implode (glue : string) (vals : list variable_t) : string :=
  String.concat glue (data <$> vals).

(** [array_filter]. *)
Definition array_filter {A} (l : list A) (keep : A → bool) : list A :=
  List.filter keep l.

End pf_support.

(** ** Fatal assertions *)

Inductive result (A : Type) : Type :=
  | Ok (a : A)
  | AssertEx (msg : string).
Arguments Ok {A} a.
Arguments AssertEx {A} msg.

#[global] Instance result_ret : MRet result := λ A a, Ok a.
#[global] Instance result_bind : MBind result := λ A B f r,
  match r with
  | Ok a => f a
  | AssertEx msg => AssertEx msg
  end.

Definition is_Ok {A} (r : result A) : bool :=
  match r with Ok _ => true | AssertEx _ => false end.

(** ** The grammar (pf_db::Grammar and the query grammar's operator list) *)

Record Grammar : Set := {
  table_prefix_ : string;
  get_operators : list string;
}.

Definition set_table_prefix (prefix : string) (g : Grammar) : Grammar :=
  {| table_prefix_ := prefix; get_operators := get_operators g |}.

(** ** The builder state *)

Abbreviation variable_array_t := (list variable_t).
Abbreviation variable_set_t := (gmap string variable_t).

(** Modelled from the spec: [variable_set_t] is declared in
    pf/basic/type/variable.h, which is not among the sources; the builder uses
    it as a [std::map] keyed by text (subscript by key, [begin()] to [end()]
    with [first] and [second]).  Such a map is walked in the order of its
    keys, which is the order of [std::string]: byte by byte, a prefix before
    its extensions. *)
Definition entry_le {V} : relation (string * V) :=
  λ entry1 entry2, String.leb entry1.1 entry2.1.

#[global] Instance entry_le_dec {V} (entry1 entry2 : string * V) :
  Decision (entry_le entry1 entry2).
Proof. unfold entry_le. apply _. Defined.

(** The entries of a map from [begin()] to [end()]. *)
Definition map_items {V} (m : gmap string V) : list (string * V) :=
  merge_sort entry_le (map_to_list m).

(** [db_query_array_t]: a clause as a key/value map, the values of an
    in-clause in a map of their own, keyed by the decimal index, and the owned
    sub-query. *)
Record db_query_array_t (B : Type) : Type := {
  items : variable_set_t;
  values : variable_set_t;
  query : option B;
}.
Arguments items {B} _.
Arguments values {B} _.
Arguments query {B} _.

(** [JoinClause] is a builder with a join type and a table. *)
Record JoinClause (B : Type) : Type := {
  join_type : string;
  join_table : string;
  join_builder : B;
}.
Arguments join_type {B} _.
Arguments join_table {B} _.
Arguments join_builder {B} _.

Inductive Builder : Type := Build_Builder {
  grammar_ : Grammar;
  bindings_ : gmap string variable_array_t;
  operators_ : list string;
  distinct_ : bool;
  limit_ : Z;
  offset_ : Z;
  union_limit_ : Z;
  union_offset_ : Z;
  lock_ : variable_t;
  aggregate_ : gmap string string;
  columns_ : variable_array_t;
  from_ : string;
  joins_ : list (JoinClause Builder);
  wheres_ : list (db_query_array_t Builder);
  groups_ : variable_array_t;
  havings_ : list variable_set_t;
  orders_ : list variable_set_t;
  unions_ : list (db_query_array_t Builder);
  union_orders_ : list variable_set_t;
}.

(** Assignments to one member. *)
Definition set_grammar_ (g : Grammar) (b : Builder) : Builder :=
  Build_Builder g (bindings_ b) (operators_ b) (distinct_ b)
    (limit_ b) (offset_ b) (union_limit_ b) (union_offset_ b) (lock_ b)
    (aggregate_ b) (columns_ b) (from_ b) (joins_ b) (wheres_ b) (groups_ b)
    (havings_ b) (orders_ b) (unions_ b) (union_orders_ b).

Definition set_bindings_ (m : gmap string variable_array_t) (b : Builder) : Builder :=
  Build_Builder (grammar_ b) m (operators_ b) (distinct_ b)
    (limit_ b) (offset_ b) (union_limit_ b) (union_offset_ b) (lock_ b)
    (aggregate_ b) (columns_ b) (from_ b) (joins_ b) (wheres_ b) (groups_ b)
    (havings_ b) (orders_ b) (unions_ b) (union_orders_ b).

Definition set_operators_ (ops : list string) (b : Builder) : Builder :=
  Build_Builder (grammar_ b) (bindings_ b) ops (distinct_ b)
    (limit_ b) (offset_ b) (union_limit_ b) (union_offset_ b) (lock_ b)
    (aggregate_ b) (columns_ b) (from_ b) (joins_ b) (wheres_ b) (groups_ b)
    (havings_ b) (orders_ b) (unions_ b) (union_orders_ b).

Definition set_distinct_ (d : bool) (b : Builder) : Builder :=
  Build_Builder (grammar_ b) (bindings_ b) (operators_ b) d
    (limit_ b) (offset_ b) (union_limit_ b) (union_offset_ b) (lock_ b)
    (aggregate_ b) (columns_ b) (from_ b) (joins_ b) (wheres_ b) (groups_ b)
    (havings_ b) (orders_ b) (unions_ b) (union_orders_ b).

Definition set_limit_ (z : Z) (b : Builder) : Builder :=
  Build_Builder (grammar_ b) (bindings_ b) (operators_ b) (distinct_ b)
    z (offset_ b) (union_limit_ b) (union_offset_ b) (lock_ b)
    (aggregate_ b) (columns_ b) (from_ b) (joins_ b) (wheres_ b) (groups_ b)
    (havings_ b) (orders_ b) (unions_ b) (union_orders_ b).

Definition set_offset_ (z : Z) (b : Builder) : Builder :=
  Build_Builder (grammar_ b) (bindings_ b) (operators_ b) (distinct_ b)
    (limit_ b) z (union_limit_ b) (union_offset_ b) (lock_ b)
    (aggregate_ b) (columns_ b) (from_ b) (joins_ b) (wheres_ b) (groups_ b)
    (havings_ b) (orders_ b) (unions_ b) (union_orders_ b).

Definition set_union_limit_ (z : Z) (b : Builder) : Builder :=
  Build_Builder (grammar_ b) (bindings_ b) (operators_ b) (distinct_ b)
    (limit_ b) (offset_ b) z (union_offset_ b) (lock_ b)
    (aggregate_ b) (columns_ b) (from_ b) (joins_ b) (wheres_ b) (groups_ b)
    (havings_ b) (orders_ b) (unions_ b) (union_orders_ b).

Definition set_union_offset_ (z : Z) (b : Builder) : Builder :=
  Build_Builder (grammar_ b) (bindings_ b) (operators_ b) (distinct_ b)
    (limit_ b) (offset_ b) (union_limit_ b) z (lock_ b)
    (aggregate_ b) (columns_ b) (from_ b) (joins_ b) (wheres_ b) (groups_ b)
    (havings_ b) (orders_ b) (unions_ b) (union_orders_ b).

Definition set_lock_ (v : variable_t) (b : Builder) : Builder :=
  Build_Builder (grammar_ b) (bindings_ b) (operators_ b) (distinct_ b)
    (limit_ b) (offset_ b) (union_limit_ b) (union_offset_ b) v
    (aggregate_ b) (columns_ b) (from_ b) (joins_ b) (wheres_ b) (groups_ b)
    (havings_ b) (orders_ b) (unions_ b) (union_orders_ b).

Definition set_aggregate_ (a : gmap string string) (b : Builder) : Builder :=
  Build_Builder (grammar_ b) (bindings_ b) (operators_ b) (distinct_ b)
    (limit_ b) (offset_ b) (union_limit_ b) (union_offset_ b) (lock_ b)
    a (columns_ b) (from_ b) (joins_ b) (wheres_ b) (groups_ b)
    (havings_ b) (orders_ b) (unions_ b) (union_orders_ b).

Definition set_columns_ (cols : variable_array_t) (b : Builder) : Builder :=
  Build_Builder (grammar_ b) (bindings_ b) (operators_ b) (distinct_ b)
    (limit_ b) (offset_ b) (union_limit_ b) (union_offset_ b) (lock_ b)
    (aggregate_ b) cols (from_ b) (joins_ b) (wheres_ b) (groups_ b)
    (havings_ b) (orders_ b) (unions_ b) (union_orders_ b).

Definition set_from_ (table : string) (b : Builder) : Builder :=
  Build_Builder (grammar_ b) (bindings_ b) (operators_ b) (distinct_ b)
    (limit_ b) (offset_ b) (union_limit_ b) (union_offset_ b) (lock_ b)
    (aggregate_ b) (columns_ b) table (joins_ b) (wheres_ b) (groups_ b)
    (havings_ b) (orders_ b) (unions_ b) (union_orders_ b).

Definition set_joins_ (js : list (JoinClause Builder)) (b : Builder) : Builder :=
  Build_Builder (grammar_ b) (bindings_ b) (operators_ b) (distinct_ b)
    (limit_ b) (offset_ b) (union_limit_ b) (union_offset_ b) (lock_ b)
    (aggregate_ b) (columns_ b) (from_ b) js (wheres_ b) (groups_ b)
    (havings_ b) (orders_ b) (unions_ b) (union_orders_ b).

Definition set_wheres_ (ws : list (db_query_array_t Builder)) (b : Builder) : Builder :=
  Build_Builder (grammar_ b) (bindings_ b) (operators_ b) (distinct_ b)
    (limit_ b) (offset_ b) (union_limit_ b) (union_offset_ b) (lock_ b)
    (aggregate_ b) (columns_ b) (from_ b) (joins_ b) ws (groups_ b)
    (havings_ b) (orders_ b) (unions_ b) (union_orders_ b).

Definition set_groups_ (gs : variable_array_t) (b : Builder) : Builder :=
  Build_Builder (grammar_ b) (bindings_ b) (operators_ b) (distinct_ b)
    (limit_ b) (offset_ b) (union_limit_ b) (union_offset_ b) (lock_ b)
    (aggregate_ b) (columns_ b) (from_ b) (joins_ b) (wheres_ b) gs
    (havings_ b) (orders_ b) (unions_ b) (union_orders_ b).

Definition set_havings_ (hs : list variable_set_t) (b : Builder) : Builder :=
  Build_Builder (grammar_ b) (bindings_ b) (operators_ b) (distinct_ b)
    (limit_ b) (offset_ b) (union_limit_ b) (union_offset_ b) (lock_ b)
    (aggregate_ b) (columns_ b) (from_ b) (joins_ b) (wheres_ b) (groups_ b)
    hs (orders_ b) (unions_ b) (union_orders_ b).

Definition set_orders_ (os : list variable_set_t) (b : Builder) : Builder :=
  Build_Builder (grammar_ b) (bindings_ b) (operators_ b) (distinct_ b)
    (limit_ b) (offset_ b) (union_limit_ b) (union_offset_ b) (lock_ b)
    (aggregate_ b) (columns_ b) (from_ b) (joins_ b) (wheres_ b) (groups_ b)
    (havings_ b) os (unions_ b) (union_orders_ b).

Definition set_unions_ (us : list (db_query_array_t Builder)) (b : Builder) : Builder :=
  Build_Builder (grammar_ b) (bindings_ b) (operators_ b) (distinct_ b)
    (limit_ b) (offset_ b) (union_limit_ b) (union_offset_ b) (lock_ b)
    (aggregate_ b) (columns_ b) (from_ b) (joins_ b) (wheres_ b) (groups_ b)
    (havings_ b) (orders_ b) us (union_orders_ b).

Definition set_union_orders_ (os : list variable_set_t) (b : Builder) : Builder :=
  Build_Builder (grammar_ b) (bindings_ b) (operators_ b) (distinct_ b)
    (limit_ b) (offset_ b) (union_limit_ b) (union_offset_ b) (lock_ b)
    (aggregate_ b) (columns_ b) (from_ b) (joins_ b) (wheres_ b) (groups_ b)
    (havings_ b) (orders_ b) (unions_ b) os.

(** ** Construction and reset *)

(** The six buckets the constructor and [clear] install. *)
Definition empty_bindings : gmap string variable_array_t :=
  list_to_map [
    ("select", []); ("join", []); ("where", []);
    ("having", []); ("order", []); ("union", [])
  ].

Definition baseline_operators : list string := [
  "="; "<"; ">"; "<="; ">="; "<>"; "!="; "<=>";
  "like"; "like binary"; "not like"; "between"; "ilike";
  "&"; "|"; "^"; "<<"; ">>";
  "rlike"; "regexp"; "not regexp";
  "~"; "~*"; "!~"; "!~*"; "similar to";
  "not similar to"; "not ilike"; "~~*"; "!~~*"
].

(** [Builder::Builder(connection, grammar)] with a connection at hand: the
    members the constructor does not assign are default-constructed. *)
Definition Builder_new (grammar : Grammar) : Builder :=
  {| grammar_ := grammar;
     bindings_ := empty_bindings;
     operators_ := baseline_operators;
     distinct_ := false;
     limit_ := -1;
     offset_ := -1;
     union_limit_ := -1;
     union_offset_ := -1;
     lock_ := variable_unset;
     aggregate_ := ∅;
     columns_ := [];
     from_ := "";
     joins_ := [];
     wheres_ := [];
     groups_ := [];
     havings_ := [];
     orders_ := [];
     unions_ := [];
     union_orders_ := [] |}.

(** [Builder::clear]. *)
Definition clear (b : Builder) : Builder :=
  {| grammar_ := set_table_prefix "" (grammar_ b);
     bindings_ := empty_bindings;
     operators_ := operators_ b;
     distinct_ := false;
     limit_ := -1;
     offset_ := -1;
     union_limit_ := -1;
     union_offset_ := -1;
     lock_ := variable_unset;
     aggregate_ := ∅;
     columns_ := [];
     from_ := from_ b;
     joins_ := [];
     wheres_ := [];
     groups_ := [];
     havings_ := [];
     orders_ := [];
     unions_ := [];
     union_orders_ := [] |}.

(** ** The binding store *)

(** Modelled from the spec: [DB_BINDING_KEYS] is a macro of pf/db/config.h,
    which is not among the sources; the buckets are flattened in the fixed
    order select, join, where, having, order, union. *)
Definition DB_BINDING_KEYS : list string :=
  ["select"; "join"; "where"; "having"; "order"; "union"].

(** The values held under a bucket name (none when the name is unknown). *)
Definition bucket (b : Builder) (name : string) : variable_array_t :=
  default [] (bindings_ b !! name).

Definition invalid_binding_type {A} (name : string) : result A :=
  AssertEx ("Invalid binding type: " +:+ name).

(** [Builder::set_bindings]. *)
Definition set_bindings (b : Builder) (bindings : variable_array_t)
    (name : string) : result Builder :=
  match bindings_ b !! name with
  | None => invalid_binding_type name
  | Some _ => Ok (set_bindings_ (<[name := bindings]> (bindings_ b)) b)
  end.

(** [Builder::add_bindings]: every item is appended to the bucket. *)
Definition add_bindings (b : Builder) (vals : variable_array_t)
    (name : string) : result Builder :=
  match bindings_ b !! name with
  | None => invalid_binding_type name
  | Some held => Ok (set_bindings_ (<[name := held ++ vals]> (bindings_ b)) b)
  end.

(** [Builder::add_binding]. *)
Definition add_binding (b : Builder) (val : variable_t)
    (name : string) : result Builder :=
  match bindings_ b !! name with
  | None => invalid_binding_type name
  | Some held => Ok (set_bindings_ (<[name := held ++ [val]]> (bindings_ b)) b)
  end.

(** [bindings_[name]] as an rvalue: the map's subscript creates an empty
    bucket under a name it does not hold yet. *)
Definition bindings_at (name : string) (b : Builder) : variable_array_t * Builder :=
  match bindings_ b !! name with
  | Some held => (held, b)
  | None => ([], set_bindings_ (<[name := []]> (bindings_ b)) b)
  end.

(** [Builder::get_bindings]: the flat sequence and the builder afterwards. *)
Definition get_bindings (b : Builder) : variable_array_t * Builder :=
  if bool_decide (bindings_ b = ∅) then ([], b)
  else
    foldl (λ (acc : variable_array_t * Builder) name,
             let '(held, b') := bindings_at name acc.2 in
             (acc.1 ++ held, b'))
          ([], b) DB_BINDING_KEYS.

(** [Builder::clean_bindings]. *)
Definition clean_bindings (b : Builder) (except : list string) : Builder :=
  foldl (λ q name, set_bindings_ (<[name := []]> (bindings_ q)) q) b except.

(** [Builder::clean_bindings_expression]. *)
Definition clean_bindings_expression (bindings : variable_array_t) : variable_array_t :=
  pf_support.array_filter bindings (λ val, negb (is_expression val)).

(** ** Select columns *)



(** ** Predicates *)

(** Appending one clause to [wheres_]. *)
Definition push_where (w : db_query_array_t Builder) (b : Builder) : Builder :=
  set_wheres_ (wheres_ b ++ [w]) b.

(** [Builder::invalid_operator_and_value]. *)
Definition invalid_operator_and_value (b : Builder) (oper val : variable_t) : bool :=
  (pf_support.empty val || var_eq val "")
  && pf_support.in_array (data oper) (operators_ b)
  && negb (pf_support.in_array (data oper) ["="; "<>"; "!="]).

(** [Builder::invalid_operator]. *)
Definition invalid_operator (b : Builder) (oper : string) : bool :=
  negb (pf_support.in_array oper (operators_ b))
  && negb (pf_support.in_array oper (get_operators (grammar_ b))).

(** The message of the assertion in [prepare_value_and_operator]. *)
Definition illegal_combination : string := "Illegal operator and val combination.".

(** [Builder::prepare_value_and_operator]: the pair [{value, operator}]. *)
Definition prepare_value_and_operator (b : Builder) (val oper : variable_t)
    (use_default : bool) : result (variable_t * variable_t) :=
  if use_default then Ok (oper, variable_of_string "=")
  else if invalid_operator_and_value b oper val
  then AssertEx illegal_combination
  else Ok (val, oper).

(** [Builder::where_null]. *)
Definition where_null (b : Builder) (column boolean : string) (isnot : bool) : Builder :=
  push_where
    {| items := list_to_map [
         ("type", variable_of_string (if isnot then "notnull" else "null"));
         ("column", variable_of_string column);
         ("boolean", variable_of_string boolean)];
       values := ∅;
       query := None |} b.

(** The clause [Builder::where] appends for a comparison. *)
Definition basic_where (column : string) (roper rval : variable_t)
    (boolean : string) : db_query_array_t Builder :=
  {| items := list_to_map [
       ("type", variable_of_string "basic");
       ("column", variable_of_string column);
       ("operator", roper);
       ("value", rval);
       ("boolean", variable_of_string boolean)];
     values := ∅;
     query := None |}.

(** The raw boolean text that replaces a boolean compared with a JSON path. *)
Definition json_boolean (rval : variable_t) : variable_t :=
  {| type := DB_EXPRESSION_TYPE;
     data := if bool_decide (rval = variable_of_bool true) then "true" else "false" |}.

(** [Builder::where(column, oper, val, boolean)] on values. *)
Definition where_ (b : Builder) (column : string) (oper val : variable_t)
    (boolean : string) : result Builder :=
  let use_default := var_eq val "" && bool_decide ("and" = boolean) in
  val_oper ← prepare_value_and_operator b val oper use_default;
  let rval := val_oper.1 in
  let roper := val_oper.2 in
  let '(rval, roper) :=
    if invalid_operator b (data roper)
    then (roper, variable_of_string "=")
    else (rval, roper) in
  if pf_support.empty rval
  then Ok (where_null b column boolean (negb (var_eq roper "=")))
  else
    let rval :=
      if pf_support.contains column "->"
         && bool_decide (type rval = kVariableTypeBool)
      then json_boolean rval
      else rval in
    let b := push_where (basic_where column roper rval boolean) b in
    if negb (is_expression rval) then add_binding b rval "where" else Ok b.

(** [Builder::where_column]. *)
Definition where_column (b : Builder) (_first oper second boolean : string) : Builder :=
  let '(rsecond, roper) :=
    if invalid_operator b oper then (oper, "=") else (second, oper) in
  push_where
    {| items := list_to_map [
         ("type", variable_of_string "column");
         ("first", variable_of_string _first);
         ("operator", variable_of_string roper);
         ("second", variable_of_string rsecond);
         ("boolean", variable_of_string boolean)];
       values := ∅;
       query := None |} b.


(** The bindings of a value list: one for each value that is not a raw
    expression, added one after the other. *)
Fixpoint add_each_binding (b : Builder) (vals : variable_array_t)
    (name : string) : result Builder :=
  match vals with
  | [] => Ok b
  | val :: vals' =>
      b' ← (if negb (is_expression val) then add_binding b val name else Ok b);
      add_each_binding b' vals' name
  end.

(** The loop [_where.values[std::to_string(i++)] = val] of
    [Builder::where_in]. *)
Fixpoint index_values (i : nat) (vals : variable_array_t)
    (indexed : variable_set_t) : variable_set_t :=
  match vals with
  | [] => indexed
  | val :: vals' => index_values (S i) vals' (<[pretty i := val]> indexed)
  end.

(** The values of an in-list with their keys, in the order given, counted
    from [i]. *)
Definition indexed_from (i : nat) (vals : variable_array_t) : list (string * variable_t) :=
  imap (λ j val, (pretty (i + j)%nat, val)) vals.

(** The clause [Builder::where_in] appends, its values under their keys. *)
Definition in_where (column : string) (indexed : variable_set_t)
    (boolean : string) (isnot : bool) : db_query_array_t Builder :=
  {| items := list_to_map [
       ("type", variable_of_string (if isnot then "notin" else "in"));
       ("column", variable_of_string column);
       ("boolean", variable_of_string boolean)];
     values := indexed;
     query := None |}.

(** [Builder::where_in]. *)
Definition where_in (b : Builder) (column : string) (vals : variable_array_t)
    (boolean : string) (isnot : bool) : result Builder :=
  let _where := in_where column (index_values 0 vals ∅) boolean isnot in
  add_each_binding (push_where _where b) vals "where".

(** [Builder::where_between]. *)
Definition where_between (b : Builder) (column : string) (vals : variable_array_t)
    (boolean : string) (isnot : bool) : result Builder :=
  let _where :=
    {| items := list_to_map [
         ("type", variable_of_string "between");
         ("column", variable_of_string column);
         ("boolean", variable_of_string boolean);
         ("not", variable_of_bool isnot)];
       values := ∅;
       query := None |} in
  add_bindings (push_where _where b) vals "where".

(** The clause [Builder::add_date_based_where] appends. *)
Definition date_where (kind column oper : string) (val : variable_t)
    (boolean : string) : db_query_array_t Builder :=
  {| items := list_to_map [
       ("type", variable_of_string kind);
       ("column", variable_of_string column);
       ("operator", variable_of_string oper);
       ("boolean", variable_of_string boolean);
       ("value", val)];
     values := ∅;
     query := None |}.

(** [Builder::add_date_based_where]. *)
Definition add_date_based_where (b : Builder) (kind column oper : string)
    (val : variable_t) (boolean : string) : result Builder :=
  let _where := date_where kind column oper val boolean in
  add_binding (push_where _where b) val "where".

(** The body shared by [where_date], [where_day], [where_month] and
    [where_year], which differ in the clause kind only. *)
Definition where_date_part (kind : string) (b : Builder) (column oper : string)
    (val : variable_t) (boolean : string) : result Builder :=
  let use_default := var_eq val "" && bool_decide ("and" = boolean) in
  val_oper ← prepare_value_and_operator b val (variable_of_string oper) use_default;
  let rval := val_oper.1 in
  let roper := data val_oper.2 in
  add_date_based_where b kind column roper rval boolean.

(** [Builder::where_date], [where_day], [where_month], [where_year]. *)
Definition where_date := where_date_part "date".
Definition where_day := where_date_part "day".
Definition where_month := where_date_part "month".
Definition where_year := where_date_part "year".

(** ** Grouping, having, ordering, paging, unions *)

(** [Builder::group_by]. *)
Definition group_by (b : Builder) (groups : variable_array_t) : Builder :=
  set_groups_ (groups_ b ++ groups) b.

(** The clause [Builder::having] appends. *)
Definition basic_having (column : string) (roper rval : variable_t)
    (boolean : string) : variable_set_t :=
  list_to_map [
    ("type", variable_of_string "basic");
    ("column", variable_of_string column);
    ("operator", roper);
    ("value", rval);
    ("boolean", variable_of_string boolean)].

(** [Builder::having]. *)
Definition having (b : Builder) (column : string) (oper val : variable_t)
    (boolean : string) : result Builder :=
  let use_default := var_eq val "" && bool_decide ("and" = boolean) in
  val_oper ← prepare_value_and_operator b val oper use_default;
  let rval := val_oper.1 in
  let roper := val_oper.2 in
  let '(rval, roper) :=
    if invalid_operator b (data roper)
    then (roper, variable_of_string "=")
    else (rval, roper) in
  let _having := basic_having column roper rval boolean in
  let b := set_havings_ (havings_ b ++ [_having]) b in
  if negb (is_expression rval) then add_binding b rval "having" else Ok b.

(** The order specifications [order_by] and [order_byraw] append. *)
Definition column_order (column direction : string) : variable_set_t :=
  list_to_map [
    ("column", variable_of_string column);
    ("direction",
     variable_of_string (if bool_decide ("asc" = direction) then "asc" else "desc"))].

Definition raw_order (sql : string) : variable_set_t :=
  list_to_map [("type", variable_of_string "raw"); ("sql", variable_of_string sql)].

(** [Builder::order_by]. *)
Definition order_by (b : Builder) (column direction : string) : Builder :=
  let order := column_order column direction in
  if bool_decide (unions_ b = [])
  then set_orders_ (orders_ b ++ [order]) b
  else set_union_orders_ (union_orders_ b ++ [order]) b.

(** [Builder::order_byraw]. *)
Definition order_byraw (b : Builder) (sql : string)
    (bindings : variable_array_t) : result Builder :=
  let order := raw_order sql in
  let b :=
    if bool_decide (unions_ b = [])
    then set_orders_ (orders_ b ++ [order]) b
    else set_union_orders_ (union_orders_ b ++ [order]) b in
  add_bindings b bindings "order".

(** [Builder::offset]. *)
Definition offset (b : Builder) (val : Z) : Builder :=
  let val := Z.max 0 val in
  if bool_decide (unions_ b = [])
  then set_offset_ val b
  else set_union_offset_ val b.

(** [Builder::limit]. *)
Definition limit (b : Builder) (val : Z) : Builder :=
  if bool_decide (0 ≤ val) then
    if bool_decide (unions_ b = [])
    then set_limit_ val b
    else set_union_limit_ val b
  else b.

(** [Builder::_union(query, all)]: the sub-query is moved into the clause and
    its bindings are added to the union bucket. *)
Definition _union (b : Builder) (query : Builder) (all : bool) : result Builder :=
  let '(bindings, query) := get_bindings query in
  let _where :=
    {| items := list_to_map [("all", variable_of_bool all)];
       values := ∅;
       query := Some query |} in
  b ← add_bindings b bindings "union";
  Ok (set_unions_ (unions_ b ++ [_where]) b).

(** [Builder::clean]. *)
Definition clean (b : Builder) (except : string) : Builder :=
  if bool_decide ("columns" = except) then set_columns_ [] b
  else if bool_decide ("distinct" = except) then set_distinct_ false b
  else if bool_decide ("from" = except) then set_from_ "" b
  else if bool_decide ("joins" = except) then set_joins_ [] b
  else if bool_decide ("wheres" = except) then set_wheres_ [] b
  else if bool_decide ("groups" = except) then set_groups_ [] b
  else if bool_decide ("havings" = except) then set_havings_ [] b
  else if bool_decide ("orders" = except) then set_orders_ [] b
  else if bool_decide ("limit" = except) then set_limit_ (-1) b
  else if bool_decide ("offset" = except) then set_offset_ (-1) b
  else if bool_decide ("unions" = except) then set_unions_ [] b
  else if bool_decide ("union_limit" = except) then set_union_offset_ (-1) b
  else if bool_decide ("union_offset" = except) then set_union_offset_ (-1) b
  else if bool_decide ("union_orders" = except) then set_union_orders_ [] b
  else if bool_decide ("lock" = except) then set_lock_ (variable_of_bool false) b
  else if bool_decide ("operators" = except) then set_operators_ [] b
  else b.

(** [Builder::set_aggregate]. *)
Definition set_aggregate (b : Builder) (function : string)
    (columns : variable_array_t) : Builder :=
  let _columns := pf_support.implode ", " columns in
  let b := set_aggregate_
    (<["columns" := _columns]> (<["function" := function]> (aggregate_ b))) b in
  if bool_decide (groups_ b = [])
  then set_bindings_ (<["order" := []]> (bindings_ b)) (set_orders_ [] b)
  else b.

(** ** The grammar compiler

    The query grammar ([compile_select], [compile_insert]) is declared in
    pf/db/query/grammars/grammar.h and defined outside the sources at hand;
    only the inline members of the base class [pf_db::Grammar] are.  The
    compiled text is kept as the sequence of its pieces, so that a placeholder
    marker is told from the text around it.  A marker is the text [?] whatever
    it stands for; the model keeps with it the value the grammar was asked a
    parameter for, when the clause holds one, so that a statement can tell
    which value a marker stands for. *)

Inductive sql_fragment : Set :=
  | sql_text (s : string)        (* a keyword, an operator or raw SQL, verbatim *)
  | sql_identifier (s : string)  (* a wrapped table or column name *)
  | sql_placeholder (value : option variable_t)  (* the marker [?] *)
  | sql_static_false             (* a condition that holds for no row *)
  | sql_static_true.             (* a condition that holds for every row *)

#[global] Instance sql_fragment_eq_dec : EqDecision sql_fragment.
Proof. solve_decision. Defined.

(** [Grammar::get_value]. *)
Definition get_value (value : variable_t) : string := data value.

(** [Grammar::parameter]. *)
Definition parameter (value : variable_t) : sql_fragment :=
  if is_expression value then sql_text (get_value value)
  else sql_placeholder (Some value).

(** [Grammar::wrap_table] applied to the table of the builder. *)
Definition wrap_table (g : Grammar) (table : variable_t) : sql_fragment :=
  if negb (is_expression table)
  then sql_identifier (table_prefix_ g +:+ data table)
  else sql_text (data table).

(** Modelled from the spec: [Grammar::wrap] is defined outside the sources;
    a raw expression passes through verbatim, any other name is quoted the
    dialect's way. *)
Definition wrap (value : variable_t) : sql_fragment :=
  if is_expression value then sql_text (get_value value)
  else sql_identifier (data value).

(** Modelled from the spec: a list of clauses is compiled clause by clause,
    each behind its connector, and the connector of the first clause is
    dropped in favour of the section's keyword; an empty list compiles to
    nothing. *)
Definition compile_section (keyword : string)
    (clauses : list (list sql_fragment)) : list sql_fragment :=
  match mjoin clauses with
  | [] => []
  | _ :: rest => sql_text keyword :: rest
  end.

Section clauses.

(** The compilation of an owned sub-query as a select statement, and of its
    predicate list alone. *)
Variable sub_select : Builder → list sql_fragment.
Variable sub_wheres : Builder → list sql_fragment.

Definition parenthesized (sub : Builder → list sql_fragment)
    (q : option Builder) : list sql_fragment :=
  [sql_text "("] ++ from_option sub [] q ++ [sql_text ")"].

(** Modelled from the spec: the predicate compiler mirrors the clause kinds
    one to one (section 4.2); the connector comes first.  The values of an
    in-list are rendered by [Grammar::parameterize(variable_set_t &)], in the
    order the map yields them; a range holds no value, its two markers stand
    for what the builder bound. *)
Definition compile_where (w : db_query_array_t Builder) : list sql_fragment :=
  let item key := items w !!! key in
  let kind := data (item "type") in
  let column := wrap (item "column") in
  sql_text (data (item "boolean")) ::
  if bool_decide (kind = "basic") then
    [column; sql_text (data (item "operator")); parameter (item "value")]
  else if bool_decide (kind = "column") then
    [wrap (item "first"); sql_text (data (item "operator")); wrap (item "second")]
  else if bool_decide (kind = "raw") then
    [sql_text (data (item "sql"))]
  else if bool_decide (kind = "in") then
    match map_items (values w) with
    | [] => [sql_static_false]
    | vals => [column; sql_text "in ("] ++ (parameter ∘ snd <$> vals) ++ [sql_text ")"]
    end
  else if bool_decide (kind = "notin") then
    match map_items (values w) with
    | [] => [sql_static_true]
    | vals => [column; sql_text "not in ("] ++ (parameter ∘ snd <$> vals) ++ [sql_text ")"]
    end
  else if bool_decide (kind = "insub") then
    [column; sql_text "in"] ++ parenthesized sub_select (query w)
  else if bool_decide (kind = "not_insub") then
    [column; sql_text "not in"] ++ parenthesized sub_select (query w)
  else if bool_decide (kind = "null") then
    [column; sql_text "is null"]
  else if bool_decide (kind = "notnull") then
    [column; sql_text "is not null"]
  else if bool_decide (kind = "between") then
    [column;
     sql_text (if bool_decide (item "not" = variable_of_bool true)
               then "not between" else "between");
     sql_placeholder None; sql_text "and"; sql_placeholder None]
  else if bool_decide (kind ∈ ["date"; "day"; "month"; "year"; "time"]) then
    [sql_text kind; sql_text "("; column; sql_text ")";
     sql_text (data (item "operator")); parameter (item "value")]
  else if bool_decide (kind = "exists") then
    sql_text "exists" :: parenthesized sub_select (query w)
  else if bool_decide (kind = "notexists") then
    sql_text "not exists" :: parenthesized sub_select (query w)
  else if bool_decide (kind = "nested") then
    parenthesized sub_wheres (query w)
  else if bool_decide (kind = "sub") then
    [column; sql_text (data (item "operator"))] ++ parenthesized sub_select (query w)
  else [].

Definition compile_wheres (ws : list (db_query_array_t Builder)) : list sql_fragment :=
  compile_section "where" (compile_where <$> ws).

(** Modelled from the spec: a join is its type, its table and its own
    predicate list as the ON conditions. *)
Definition compile_join (j : JoinClause Builder) : list sql_fragment :=
  [sql_text (join_type j +:+ " join"); sql_identifier (join_table j)]
  ++ sub_wheres (join_builder j).

Definition compile_joins (js : list (JoinClause Builder)) : list sql_fragment :=
  mjoin (compile_join <$> js).

(** Modelled from the spec: each union is the compiled sub-select behind
    its keyword. *)
Definition compile_union (u : db_query_array_t Builder) : list sql_fragment :=
  sql_text (if bool_decide (items u !!! "all" = variable_of_bool true)
            then "union all" else "union")
  :: from_option sub_select [] (query u).

Definition compile_unions (us : list (db_query_array_t Builder)) : list sql_fragment :=
  mjoin (compile_union <$> us).

End clauses.

(** Modelled from the spec: the select list, or the aggregate in its place. *)
Definition compile_columns (q : Builder) : list sql_fragment :=
  match aggregate_ q !! "function" with
  | Some function =>
      [sql_text "select"; sql_text function; sql_text "(";
       sql_text (default "" (aggregate_ q !! "columns")); sql_text ") as aggregate"]
  | None =>
      sql_text (if distinct_ q then "select distinct" else "select") ::
      match columns_ q with
      | [] => [sql_text "*"]
      | columns => wrap <$> columns
      end
  end.

Definition compile_from (q : Builder) : list sql_fragment :=
  if bool_decide (from_ q = "") then []
  else [sql_text "from"; wrap_table (grammar_ q) (variable_of_string (from_ q))].

Definition compile_groups (groups : variable_array_t) : list sql_fragment :=
  match groups with
  | [] => []
  | _ => sql_text "group by" :: (wrap <$> groups)
  end.

(** Modelled from the spec: a having clause has the shape of a comparison or
    of raw SQL. *)
Definition compile_having (h : variable_set_t) : list sql_fragment :=
  sql_text (data (h !!! "boolean")) ::
  if bool_decide (data (h !!! "type") = "raw")
  then [sql_text (data (h !!! "sql"))]
  else [wrap (h !!! "column"); sql_text (data (h !!! "operator"));
        parameter (h !!! "value")].

Definition compile_havings (hs : list variable_set_t) : list sql_fragment :=
  compile_section "having" (compile_having <$> hs).

Definition compile_order (o : variable_set_t) : list sql_fragment :=
  if bool_decide (data (o !!! "type") = "raw")
  then [sql_text (data (o !!! "sql"))]
  else [wrap (o !!! "column"); sql_text (data (o !!! "direction"))].

Definition compile_orders (os : list variable_set_t) : list sql_fragment :=
  match os with
  | [] => []
  | _ => sql_text "order by" :: mjoin (compile_order <$> os)
  end.

(** An absent limit or offset is the constructor's -1. *)
Definition compile_limit (keyword : string) (val : Z) : list sql_fragment :=
  if bool_decide (0 ≤ val) then [sql_text keyword; sql_text (pretty val)] else [].

Definition compile_lock (lock : variable_t) : list sql_fragment :=
  if bool_decide (type lock = kVariableTypeInvalid) then []
  else if bool_decide (type lock = kVariableTypeBool) then
    [sql_text (if bool_decide (lock = variable_of_bool true)
               then "for update" else "lock in share mode")]
  else [sql_text (data lock)].

(** Modelled from the spec: the sections of a select statement in their
    compilation order (section 4.2), each under the name of the binding
    bucket the builder fills for it (the empty name for a section without
    bindings; the builder files the bindings of a raw union order under
    order).  [compile_nested] is the predicate list of a nested group, without
    the section keyword. *)
Fixpoint compile_components (q : Builder) : list (string * list sql_fragment) :=
  let sub_select q' := mjoin (snd <$> compile_components q') in
  [ ("select", compile_columns q);
    ("", compile_from q);
    ("join", compile_joins compile_nested (joins_ q));
    ("where", compile_wheres sub_select compile_nested (wheres_ q));
    ("", compile_groups (groups_ q));
    ("having", compile_havings (havings_ q));
    ("order", compile_orders (orders_ q));
    ("", compile_limit "limit" (limit_ q) ++ compile_limit "offset" (offset_ q));
    ("", compile_lock (lock_ q));
    ("union", compile_unions sub_select (unions_ q));
    ("order", compile_orders (union_orders_ q));
    ("", compile_limit "limit" (union_limit_ q)
         ++ compile_limit "offset" (union_offset_ q)) ]
with compile_nested (q : Builder) : list sql_fragment :=
  let sub_select q' := mjoin (snd <$> compile_components q') in
  tail (compile_wheres sub_select compile_nested (wheres_ q)).

(** Modelled from the spec: [Grammar::compile_select] joins the sections
    that are not empty. *)
Definition compile_select (q : Builder) : list sql_fragment :=
  mjoin (snd <$> compile_components q).

(** Modelled from the spec: [Grammar::compile_insert] renders one
    parenthesized group per record, one parameter per column. *)
Definition compile_insert (q : Builder) (vals : list variable_set_t) : list sql_fragment :=
  [sql_text "insert into"; wrap_table (grammar_ q) (variable_of_string (from_ q));
   sql_text "("]
  ++ (sql_identifier ∘ fst <$> map_items (default ∅ (head vals)))
  ++ [sql_text ") values"]
  ++ mjoin ((λ record : variable_set_t,
               [sql_text "("] ++ (parameter ∘ snd <$> map_items record) ++ [sql_text ")"])
            <$> vals).

(** The placeholder markers of a compiled text, in order: each is the value
    it stands for, when the clause holds one. *)
Definition markers (sql : list sql_fragment) : list (option variable_t) :=
  omap (λ fragment,
          match fragment with
          | sql_placeholder value => Some value
          | _ => None
          end) sql.

Arguments markers : simpl never.

(** The number of placeholder markers of a compiled text. *)
Definition placeholders (sql : list sql_fragment) : nat :=
  length (markers sql).

(** ** Execution through the connection *)

(** Modelled from the spec: [db_fetch_array_t] is declared outside the
    sources; a row set is the rows in order, each from column name to value,
    and [get(row, key)] points at the value or is null. *)
Abbreviation db_fetch_array_t := (list variable_set_t).

Definition fetch_get (results : db_fetch_array_t) (row : nat)
    (key : string) : option variable_t :=
  results !! row ≫= (λ columns, columns !! key).

(** The execution collaborator ([pf_db::ConnectionInterface]). *)
Class ConnectionInterface : Type := {
  connection_select : list sql_fragment → variable_array_t → db_fetch_array_t;
  connection_insert : list sql_fragment → variable_array_t → bool;
  connection_raw : variable_t → variable_t;
}.

(** The numeric conversions of [variable_t]: [get<double>()] and
    [get<int32_t>()], the conversion of an [int32_t] to [double], and the
    converting constructor from [double]. *)
Class NumericConversions : Type := {
  double : Type;
  get_double : variable_t → double;
  get_int32 : variable_t → Z;
  double_of_int32 : Z → double;
  variable_of_double : double → variable_t;
}.

Section execution.

Context `{ConnectionInterface}.

(** [Builder::to_sql]. *)
Definition to_sql (b : Builder) : list sql_fragment := compile_select b.

(** [Builder::run_select]. *)
Definition run_select (b : Builder) : db_fetch_array_t * Builder :=
  let sql := to_sql b in
  let '(bindings, b) := get_bindings b in
  (connection_select sql bindings, b).

(** [Builder::get]. *)
Definition get (b : Builder) (columns : variable_array_t) : db_fetch_array_t * Builder :=
  let original := columns_ b in
  let b := if bool_decide (original = []) then set_columns_ columns b else b in
  let '(result, b) := run_select b in
  (result, set_columns_ original b).

(** [Builder::raw]. *)
Definition raw (val : variable_t) : variable_t := connection_raw val.

(** Modelled from the spec: [new_query] is defined outside the sources; the
    new builder shares the grammar and the connection only. *)
Definition new_query (b : Builder) : Builder := Builder_new (grammar_ b).

(** The query [Builder::aggregate] prepares and runs. *)
Definition aggregate_query (b : Builder) (function : string)
    (columns : variable_array_t) : Builder :=
  let query := new_query b in
  set_aggregate (clean_bindings (clean query "columns") ["select"]) function columns.

(** [Builder::aggregate]. *)
Definition aggregate (b : Builder) (function : string)
    (columns : variable_array_t) : variable_t :=
  let results := (get (aggregate_query b function columns) columns).1 in
  match fetch_get results 0 "aggregate" with
  | Some _result => _result
  | None => variable_unset
  end.

(** [Builder::numeric_aggregate].  The two branches of the conditional
    expression are a [double] and an [int32_t]; the expression has their
    common type [double], and the value returned is built from it. *)
Definition numeric_aggregate `{NumericConversions} (b : Builder)
    (function : string) (columns : variable_array_t) : variable_t :=
  let result := aggregate b function columns in
  if pf_support.empty result then variable_of_int32 0
  else if negb (bool_decide (type result = kVariableTypeString)) then result
  else
    variable_of_double
      (if pf_support.contains (data result) "."
       then get_double result
       else double_of_int32 (get_int32 result)).

(** [Builder::insert]. *)
Definition insert (b : Builder) (vals : list variable_set_t) : bool :=
  match vals with
  | [] => true
  | first :: _ =>
      let cbindings := snd <$> map_items first in
      connection_insert (compile_insert b vals)
                        (clean_bindings_expression cbindings)
  end.

End execution.

(** ** Further members of the builder *)


(** [Builder::merge_wheres]: the where bucket is reached through the map's
    subscript, which creates it when it is not there. *)
Definition merge_wheres (b : Builder) (wheres : list (db_query_array_t Builder))
    (bindings : variable_array_t) : Builder :=
  let b := set_wheres_ (wheres_ b ++ wheres) b in
  let '(held, b) := bindings_at "where" b in
  let b :=
    if bool_decide (held = [])
    then set_bindings_ (<["where" := []]> (bindings_ b)) b
    else b in
  foldl (λ q binding,
           set_bindings_ (<["where" := bucket q "where" ++ [binding]]> (bindings_ q)) q)
        b bindings.

(** The clause [Builder::add_nested_where_query] appends. *)
Definition nested_where (query : Builder) (boolean : string) : db_query_array_t Builder :=
  {| items := list_to_map [
       ("type", variable_of_string "nested");
       ("boolean", variable_of_string boolean)];
     values := ∅;
     query := Some query |}.

(** [Builder::add_nested_where_query]: the query is moved into the clause, its
    bindings are read from there. *)
Definition add_nested_where_query (b : Builder) (query : Builder)
    (boolean : string) : result Builder :=
  if negb (bool_decide (wheres_ query = [])) then
    let '(bindings, query) := get_bindings query in
    b ← add_bindings b bindings "where";
    Ok (push_where (nested_where query boolean) b)
  else Ok b.



(** [item["column"]] on an order specification: the subscript creates an
    unset entry when there is none. *)
Definition order_column (item : variable_set_t) : variable_t * variable_set_t :=
  match item !! "column" with
  | Some column => (column, item)
  | None => (variable_unset, <["column" := variable_unset]> item)
  end.

(** [Builder::remove_existing_orders_for]: the orders kept, and the builder
    with its order list as the loop leaves it. *)
Definition remove_existing_orders_for (b : Builder)
    (column : string) : list variable_set_t * Builder :=
  let visited := (λ item, (order_column item).2) <$> orders_ b in
  (List.filter (λ item, negb (var_eq (order_column item).1 column)) visited,
   set_orders_ visited b).

(** [Builder::enforce_order_by]. *)
Definition enforce_order_by (b : Builder) : result () :=
  if bool_decide (orders_ b = []) && bool_decide (union_orders_ b = [])
  then AssertEx "You must specify an order_by clause when using this function."
  else Ok ().

(** [Builder::merge_bindings]: the buckets of the other query, in the order
    the map yields them. *)
Definition merge_bindings (b : Builder) (query : Builder) : result Builder :=
  foldl (λ (acc : result Builder) (entry : string * variable_array_t),
           b' ← acc; add_bindings b' entry.2 entry.1)
        (Ok b) (map_items (bindings_ query)).

(** ** Sub-queries filled by a closure, and joins *)

(** A caller-supplied closure ([closure_t], a [std::function] that takes a
    pointer to a builder) fills the builder it is handed, or ends in a fatal
    assertion. *)
Abbreviation closure_t := (Builder → result Builder).

(** The clause [Builder::where_insub] and [Builder::where_in_existing_query]
    append. *)
Definition insub_where (column boolean : string) (isnot : bool)
    (query : Builder) : db_query_array_t Builder :=
  {| items := list_to_map [
       ("type", variable_of_string (if isnot then "not_insub" else "insub"));
       ("column", variable_of_string column);
       ("boolean", variable_of_string boolean)];
     values := ∅;
     query := Some query |}.

(** [Builder::where_insub]: the callback fills a new query, which the clause
    owns; its bindings are added to the where bucket. *)
Definition where_insub (b : Builder) (column : string) (callback : closure_t)
    (boolean : string) (isnot : bool) : result Builder :=
  query ← callback (new_query b);
  let '(bindings, query) := get_bindings query in
  b ← add_bindings b bindings "where";
  Ok (push_where (insub_where column boolean isnot query) b).

(** [Builder::where_in_existing_query]: the clause owns a new query made from
    the query given ([query.new_query()]), not the query given. *)
Definition where_in_existing_query (b : Builder) (column : string)
    (query : Builder) (boolean : string) (isnot : bool) : result Builder :=
  let '(bindings, _query) := get_bindings (new_query query) in
  b ← add_bindings b bindings "where";
  Ok (push_where (insub_where column boolean isnot _query) b).

(** The clause [Builder::where_sub] appends. *)
Definition sub_where (column oper boolean : string)
    (query : Builder) : db_query_array_t Builder :=
  {| items := list_to_map [
       ("type", variable_of_string "sub");
       ("column", variable_of_string column);
       ("operator", variable_of_string oper);
       ("boolean", variable_of_string boolean)];
     values := ∅;
     query := Some query |}.

(** [Builder::where_sub]. *)
Definition where_sub (b : Builder) (column oper : string) (callback : closure_t)
    (boolean : string) : result Builder :=
  query ← callback (new_query b);
  let '(bindings, query) := get_bindings query in
  b ← add_bindings b bindings "where";
  Ok (push_where (sub_where column oper boolean query) b).


(** Modelled from the spec: [JoinClause] is declared in
    pf/db/query/join_clause.h, which is not among the sources; a join clause is
    a builder of its own for the ON conditions, made for the grammar of the
    query it joins, with the join type and the table (section 3). *)
Definition JoinClause_new (parent : Builder) (type table : string) : JoinClause Builder :=
  {| join_type := type; join_table := table; join_builder := new_query parent |}.

(** [Builder::join(table, callback, first, oper, type, where)]: the callback
    fills the conditions of a new join clause, whose bindings are added to the
    join bucket before the clause is moved into [joins_]. *)
Definition join (b : Builder) (table : string) (callback : closure_t)
    (type : string) : result Builder :=
  let _join := JoinClause_new b type table in
  conditions ← callback (join_builder _join);
  let '(bindings, conditions) := get_bindings conditions in
  b ← add_bindings b bindings "join";
  Ok (set_joins_
        (joins_ b ++ [{| join_type := join_type _join;
                         join_table := join_table _join;
                         join_builder := conditions |}]) b).

(** ** Derived notions used by the statements *)

(** The bucket name of every binding of the flat sequence, in order. *)
Definition binding_buckets (b : Builder) : list string :=
  DB_BINDING_KEYS ≫= (λ name, replicate (length (bucket b name)) name).

(** The bucket name of every placeholder of the compiled select, in order. *)
Definition placeholder_buckets (q : Builder) : list string :=
  compile_components q ≫= (λ section, replicate (placeholders section.2) section.1).

(** Builder states reached from a new builder through the predicate, having,
    grouping, ordering and paging calls that bind exactly what they render: a
    comparison, an in-list, a null test, a column comparison, a range with its
    two bounds, a date part compared with a value that is not raw. *)
Inductive built : Builder → Prop :=
  | built_new grammar :
      built (Builder_new grammar)
  | built_where b column oper val boolean b' :
      built b → where_ b column oper val boolean = Ok b' → built b'
  | built_where_in b column vals boolean isnot b' :
      built b → where_in b column vals boolean isnot = Ok b' → built b'
  | built_where_null b column boolean isnot :
      built b → built (where_null b column boolean isnot)
  | built_where_column b _first oper second boolean :
      built b → built (where_column b _first oper second boolean)
  | built_where_between b column low high boolean isnot b' :
      built b → where_between b column [low; high] boolean isnot = Ok b' → built b'
  | built_where_date_part kind b column oper val boolean b' :
      built b → kind ∈ ["date"; "day"; "month"; "year"] →
      is_expression val = false →
      where_date_part kind b column oper val boolean = Ok b' → built b'
  | built_having b column oper val boolean b' :
      built b → having b column oper val boolean = Ok b' → built b'
  | built_group_by b groups :
      built b → built (group_by b groups)
  | built_order_by b column direction :
      built b → built (order_by b column direction)
  | built_limit b val :
      built b → built (limit b val)
  | built_offset b val :
      built b → built (offset b val).

(** A binding is in step with a marker when it is the value the marker stands
    for; the markers of a range stand for no value of the clause, any binding
    is in step with them. *)
Definition stands_for (marker : option variable_t) (binding : variable_t) : Prop :=
  ∀ value, marker = Some value → binding = value.

(** The bindings correspond one to one, in order, to the markers of a
    compiled text. *)
Definition in_step (bindings : variable_array_t) (sql : list sql_fragment) : Prop :=
  Forall2 stands_for (markers sql) bindings.




(** The value and the operator [Builder::where] and [Builder::having] work
    with once the shorthand forms are resolved: the pair prepared from the
    arguments, or the operator argument taken as the value of an equality
    when it is no operator. *)
Definition resolved_value_and_operator (b : Builder) (oper val : variable_t)
    (boolean : string) : result (variable_t * variable_t) :=
  val_oper ← prepare_value_and_operator b val oper
               (var_eq val "" && bool_decide ("and" = boolean));
  Ok (if invalid_operator b (data val_oper.2)
      then (val_oper.2, variable_of_string "=")
      else val_oper).

(** All members but the binding store are the same. *)
Definition same_members (b b' : Builder) : Prop :=
  set_bindings_ (bindings_ b) b' = b.

(** All members but the binding store are the same, and every bucket holds
    the same values. *)
Definition untouched (b b' : Builder) : Prop :=
  same_members b b' ∧ ∀ name, bucket b' name = bucket b name.

(** The six buckets of the constructor are there. *)
Definition buckets_present (b : Builder) : Prop :=
  ∀ name, name ∈ DB_BINDING_KEYS → is_Some (bindings_ b !! name).

(** Every bucket holds as many values as its section renders placeholders. *)
Record bound_as_rendered (b : Builder) : Prop := {
  bar_where :
    length (bucket b "where")
    = placeholders (compile_wheres compile_select compile_nested (wheres_ b));
  bar_having :
    length (bucket b "having") = placeholders (compile_havings (havings_ b));
  bar_orders : placeholders (compile_orders (orders_ b)) = 0%nat;
  bar_select : bucket b "select" = [];
  bar_join : bucket b "join" = [];
  bar_order : bucket b "order" = [];
  bar_union : bucket b "union" = [];
  bar_joins : joins_ b = [];
  bar_unions : unions_ b = [];
  bar_union_orders : union_orders_ b = [];
}.

(** The values of all records, record by record and column by column, without
    the raw expressions. *)
Definition flattened (vals : list variable_set_t) : variable_array_t :=
  clean_bindings_expression (vals ≫= (λ record, snd <$> map_items record)).

(** ** Notions used by the further properties *)

(** The member names [clean] knows. *)
Definition clean_names : list string :=
  ["columns"; "distinct"; "from"; "joins"; "wheres"; "groups"; "havings";
   "orders"; "limit"; "offset"; "unions"; "union_limit"; "union_offset";
   "union_orders"; "lock"; "operators"].

(** The slot [offset] writes, and the one [limit] writes. *)
Definition routed_offset (b : Builder) : Z :=
  if bool_decide (unions_ b = []) then offset_ b else union_offset_ b.

Definition routed_limit (b : Builder) : Z :=
  if bool_decide (unions_ b = []) then limit_ b else union_limit_ b.

(** The operator list is the same and no bucket is lost. *)
Definition keeps_store (b b' : Builder) : Prop :=
  operators_ b' = operators_ b
  ∧ ∀ name, is_Some (bindings_ b !! name) → is_Some (bindings_ b' !! name).

(** ** Concrete builders used as examples *)

(** A grammar without table prefix and without operators of its own. *)
Definition plain_grammar : Grammar :=
  {| table_prefix_ := ""; get_operators := [] |}.

(** [where("age", ">", 18)] on a new builder. *)
Definition adults_query : Builder :=
  set_bindings_ (<["where" := [variable_of_int32 18]]> empty_bindings)
    (push_where
       (basic_where "age" (variable_of_string ">") (variable_of_int32 18) "and")
       (Builder_new plain_grammar)).


(** A raw expression. *)
Definition raw_now : variable_t :=
  {| type := DB_EXPRESSION_TYPE; data := "now()" |}.

(** What a call adds to the buckets is never a raw expression. *)
Definition binds_no_expression (b b' : Builder) : Prop :=
  ∀ name, ∃ held,
    bucket b' name = bucket b name ++ held
    ∧ Forall (λ val, is_expression val = false) held.

(** A new builder united with another new builder. *)
Definition union_query : Builder :=
  match _union (Builder_new plain_grammar) (Builder_new plain_grammar) false with
  | Ok b => b
  | AssertEx _ => Builder_new plain_grammar
  end.

(** The two records {a: 1} and {a: 2}. *)
Definition two_records : list variable_set_t :=
  [ {["a" := variable_of_int32 1]}; {["a" := variable_of_int32 2]} ].

(** A connection whose every select brings back no row. *)
Definition no_rows : ConnectionInterface :=
  {| connection_select _ _ := [];
     connection_insert _ _ := true;
     connection_raw val := {| type := DB_EXPRESSION_TYPE; data := data val |} |}.

(** A connection whose every select brings back the one row given. *)
Definition one_row (aggregate : variable_t) : ConnectionInterface :=
  {| connection_select _ _ := [ {["aggregate" := aggregate]} ];
     connection_insert _ _ := true;
     connection_raw val := {| type := DB_EXPRESSION_TYPE; data := data val |} |}.

(** Numbers kept as their text: enough to tell the conversions apart. *)
Definition textual_numbers : NumericConversions :=
  {| double := string;
     get_double val := data val;
     get_int32 val := 0;
     double_of_int32 z := pretty z +:+ ".0";
     variable_of_double d := {| type := kVariableTypeDouble; data := d |} |}.














(** * Properties *)

(** ** The order a map is walked in *)

Lemma string_compare_refl s : String.compare s s = Eq.
Proof.
  induction s as [|c s IH]; [done|]. simpl.
  unfold Ascii.compare. by rewrite N.compare_refl.
Qed.

Lemma string_leb_trans s1 s2 s3 :
  String.leb s1 s2 → String.leb s2 s3 → String.leb s1 s3.
Proof.
  unfold String.leb. revert s2 s3.
  induction s1 as [|c1 s1 IH]; intros [|c2 s2] [|c3 s3]; simpl; try done.
  unfold Ascii.compare.
  destruct (N.compare_spec (Ascii.N_of_ascii c1) (Ascii.N_of_ascii c2)) as [H12|H12|H12];
    destruct (N.compare_spec (Ascii.N_of_ascii c2) (Ascii.N_of_ascii c3)) as [H23|H23|H23];
    try done.
  - rewrite H12, H23, N.compare_refl. apply IH.
  - intros _ _. rewrite H12. by rewrite (proj2 (N.compare_lt_iff _ _) H23).
  - intros _ _. rewrite <- H23. by rewrite (proj2 (N.compare_lt_iff _ _) H12).
  - intros _ _.
    by rewrite (proj2 (N.compare_lt_iff _ _) (N.lt_trans _ _ _ H12 H23)).
Qed.

#[global] Instance entry_le_total {V} : Total (@entry_le V).
Proof.
  intros [k1 v1] [k2 v2]. unfold entry_le. simpl.
  destruct (String.leb_total k1 k2) as [->| ->]; [by left | by right].
Qed.

#[global] Instance entry_le_trans {V} : Transitive (@entry_le V).
Proof. intros [k1 v1] [k2 v2] [k3 v3]. apply string_leb_trans. Qed.

Lemma map_items_Permutation {V} (m : gmap string V) : map_items m ≡ₚ map_to_list m.
Proof. apply merge_sort_Permutation. Qed.

Lemma NoDup_fst_map_items {V} (m : gmap string V) : NoDup (map_items m).*1.
Proof. rewrite map_items_Permutation. apply NoDup_fst_map_to_list. Qed.

Lemma elem_of_map_items {V} (m : gmap string V) key val :
  (key, val) ∈ map_items m ↔ m !! key = Some val.
Proof. rewrite map_items_Permutation. apply elem_of_map_to_list. Qed.

Lemma list_to_map_items {V} (m : gmap string V) : list_to_map (map_items m) = m.
Proof.
  rewrite <- (list_to_map_to_list m) at 2.
  apply list_to_map_proper; [apply NoDup_fst_map_items | apply map_items_Permutation].
Qed.

Lemma map_items_empty {V} : map_items (∅ : gmap string V) = [].
Proof. unfold map_items. by rewrite map_to_list_empty. Qed.

Lemma map_items_singleton {V} key (val : V) : map_items {[key := val]} = [(key, val)].
Proof. unfold map_items. by rewrite map_to_list_singleton. Qed.

Lemma map_items_sorted {V} (m : gmap string V) : StronglySorted entry_le (map_items m).
Proof. apply StronglySorted_merge_sort; apply _. Qed.

(** A list of entries with distinct keys in ascending order is the walk of
    the map it makes. *)
Lemma map_items_list_to_map {V} (entries : list (string * V)) :
  NoDup entries.*1 → StronglySorted entry_le entries →
  map_items (list_to_map entries) = entries.
Proof.
  intros Hnodup Hsorted.
  apply StronglySorted_unique_strong with (R := entry_le);
    [| apply map_items_sorted | done |].
  - intros [k1 v1] [k2 v2] H1 H2 H12 H21. unfold entry_le in *. simpl in *.
    assert (k1 = k2) as <- by (by apply String.leb_antisym; apply Is_true_true).
    f_equal. apply elem_of_map_items in H1.
    apply (elem_of_list_to_map_1 (M := gmap string)) in H2; [|done].
    congruence.
  - rewrite map_items_Permutation. by apply map_to_list_to_map.
Qed.

(** ** The values of an in-list under their keys *)

Lemma fst_indexed {A B} (f : nat → B) (l : list A) :
  fst <$> imap (λ i a, (f i, a)) l = f <$> seq 0 (length l).
Proof.
  apply list_eq. intros i.
  rewrite !list_lookup_fmap, list_lookup_imap.
  destruct (l !! i) as [a|] eqn:Hi; simpl.
  - rewrite lookup_seq_lt by (by eapply lookup_lt_Some). done.
  - rewrite lookup_seq_ge by (by apply lookup_ge_None). done.
Qed.

Lemma snd_indexed {A B} (f : nat → B) (l : list A) :
  snd <$> imap (λ i a, (f i, a)) l = l.
Proof.
  revert f. induction l as [|a l IH]; intros f; [done|].
  simpl. f_equal. apply (IH (f ∘ S)).
Qed.

Lemma indexed_from_keys i vals :
  (indexed_from i vals).*1 = (λ j, pretty (i + j)%nat) <$> seq 0 (length vals).
Proof. apply (fst_indexed (λ j, pretty (i + j)%nat)). Qed.

Lemma NoDup_indexed_from i vals : NoDup (indexed_from i vals).*1.
Proof.
  rewrite indexed_from_keys. apply NoDup_fmap_2; [|apply NoDup_seq].
  intros j1 j2 Heq. apply (inj pretty) in Heq. lia.
Qed.

Lemma indexed_from_cons i val vals :
  indexed_from i (val :: vals) = (pretty i, val) :: indexed_from (S i) vals.
Proof.
  unfold indexed_from. simpl. rewrite Nat.add_0_r. f_equal.
  apply imap_ext. intros j v _. simpl. do 2 f_equal. lia.
Qed.

Lemma index_values_list_to_map vals : ∀ i indexed,
  (∀ j, indexed !! pretty (i + j)%nat = None) →
  index_values i vals indexed = list_to_map (indexed_from i vals) ∪ indexed.
Proof.
  induction vals as [|val vals IH]; intros i indexed Hfresh.
  - simpl. by rewrite (left_id_L ∅ (∪)).
  - simpl index_values. rewrite IH.
    + rewrite indexed_from_cons. simpl.
      rewrite <- insert_union_l. symmetry. apply insert_union_r.
      apply not_elem_of_list_to_map_1. rewrite indexed_from_keys.
      intros (j & Heq & _)%list_elem_of_fmap. apply (inj pretty) in Heq. lia.
    + intros j. rewrite lookup_insert_ne.
      * replace (S i + j)%nat with (i + S j)%nat by lia. apply Hfresh.
      * intros Heq. apply (inj pretty) in Heq. lia.
Qed.

Lemma index_values_indexed vals :
  index_values 0 vals ∅ = list_to_map (indexed_from 0 vals).
Proof.
  rewrite index_values_list_to_map by (intros; apply lookup_empty).
  by rewrite (right_id_L ∅ (∪)).
Qed.

Lemma index_values_lookup vals i :
  index_values 0 vals ∅ !! pretty i = vals !! i.
Proof.
  rewrite index_values_indexed.
  destruct (vals !! i) as [val|] eqn:Hi.
  - apply elem_of_list_to_map_1; [apply NoDup_indexed_from|].
    apply list_elem_of_lookup. exists i. unfold indexed_from.
    rewrite list_lookup_imap, Hi. done.
  - apply not_elem_of_list_to_map_1. rewrite indexed_from_keys.
    intros (j & Heq & Hj)%list_elem_of_fmap. apply (inj pretty) in Heq.
    simpl in Heq. subst j. apply elem_of_seq in Hj. apply lookup_ge_None in Hi. lia.
Qed.

Lemma map_items_index_values_Permutation vals :
  map_items (index_values 0 vals ∅) ≡ₚ indexed_from 0 vals.
Proof.
  rewrite map_items_Permutation, index_values_indexed.
  apply map_to_list_to_map, NoDup_indexed_from.
Qed.

Lemma map_items_index_values vals :
  (length vals ≤ 10)%nat →
  map_items (index_values 0 vals ∅) = indexed_from 0 vals.
Proof.
  intros Hlength. rewrite index_values_indexed.
  apply map_items_list_to_map; [apply NoDup_indexed_from|].
  do 11 (destruct vals as [|? vals];
         [repeat (constructor; [|repeat (constructor; [exact I|]); constructor]);
          constructor|]).
  simpl in Hlength. lia.
Qed.

(** ** The binding store *)

Lemma bucket_set_bindings_ m b name :
  bucket (set_bindings_ m b) name = default [] (m !! name).
Proof. reflexivity. Qed.

Lemma bindings_at_fst name b : (bindings_at name b).1 = bucket b name.
Proof. unfold bindings_at, bucket. by destruct (bindings_ b !! name). Qed.

Lemma bindings_at_untouched name b : untouched b (bindings_at name b).2.
Proof.
  unfold bindings_at, untouched, same_members, bucket.
  destruct (bindings_ b !! name) as [held|] eqn:Hname; simpl.
  - split; [by destruct b | done].
  - split; [by destruct b |].
    intros name'. destruct (decide (name = name')) as [<-|Hne].
    + by rewrite lookup_insert_eq, Hname.
    + by rewrite lookup_insert_ne.
Qed.

Lemma bindings_at_present name b :
  is_Some (bindings_ b !! name) → (bindings_at name b).2 = b.
Proof. unfold bindings_at. by intros [held ->]. Qed.

Lemma untouched_refl b : untouched b b.
Proof. split; [by destruct b | done]. Qed.

Lemma untouched_trans b1 b2 b3 :
  untouched b1 b2 → untouched b2 b3 → untouched b1 b3.
Proof.
  unfold untouched, same_members. intros [H12 B12] [H23 B23]. split.
  - rewrite <- H12 at 2. rewrite <- H23. reflexivity.
  - intros name. by rewrite B23, B12.
Qed.

(** The loop of [get_bindings] over any list of bucket names. *)
Lemma get_bindings_loop keys : ∀ r b,
  let out :=
    foldl (λ (acc : variable_array_t * Builder) name,
             let '(held, b') := bindings_at name acc.2 in
             (acc.1 ++ held, b'))
          (r, b) keys in
  out.1 = r ++ (keys ≫= bucket b) ∧ untouched b out.2.
Proof.
  induction keys as [|key keys IH]; intros r b; simpl.
  - split; [by rewrite app_nil_r | apply untouched_refl].
  - pose proof (bindings_at_fst key b) as Hfst.
    pose proof (bindings_at_untouched key b) as Hun.
    destruct (bindings_at key b) as [held b1]; simpl in *. subst held.
    destruct (IH (r ++ bucket b key) b1) as [Hout Hrest]. split.
    + rewrite Hout, <- app_assoc. do 2 f_equal.
      destruct Hun as [_ Hbuckets].
      apply list_bind_ext; [|done]. intros name. apply Hbuckets.
    + by eapply untouched_trans.
Qed.

Lemma get_bindings_flat b : (get_bindings b).1 = DB_BINDING_KEYS ≫= bucket b.
Proof.
  unfold get_bindings. case_bool_decide as Hempty.
  - unfold bucket. rewrite Hempty. simpl. by rewrite !lookup_empty.
  - by destruct (get_bindings_loop DB_BINDING_KEYS [] b) as [-> _].
Qed.

Lemma get_bindings_untouched b : untouched b (get_bindings b).2.
Proof.
  unfold get_bindings. case_bool_decide.
  - apply untouched_refl.
  - by destruct (get_bindings_loop DB_BINDING_KEYS [] b) as [_ ?].
Qed.

Lemma get_bindings_loop_present keys : ∀ r b,
  (∀ name, name ∈ keys → is_Some (bindings_ b !! name)) →
  (foldl (λ (acc : variable_array_t * Builder) name,
            let '(held, b') := bindings_at name acc.2 in
            (acc.1 ++ held, b'))
         (r, b) keys).2 = b.
Proof.
  induction keys as [|key keys IH]; intros r b Hpresent; simpl; [done|].
  pose proof (bindings_at_present key b) as Hsame.
  destruct (bindings_at key b) as [held b1]; simpl in *.
  rewrite Hsame by (apply Hpresent; left).
  apply IH. intros name Hname. apply Hpresent. by right.
Qed.

Lemma get_bindings_present b : buckets_present b → (get_bindings b).2 = b.
Proof.
  intros Hpresent. unfold get_bindings. case_bool_decide; [done|].
  by apply get_bindings_loop_present.
Qed.

(** ** Placeholders of the compiled sections *)

Lemma placeholders_app l1 l2 :
  placeholders (l1 ++ l2) = (placeholders l1 + placeholders l2)%nat.
Proof. unfold placeholders, markers. by rewrite omap_app, length_app. Qed.

Lemma placeholders_text s l : placeholders (sql_text s :: l) = placeholders l.
Proof. reflexivity. Qed.

Lemma placeholders_identifier s l : placeholders (sql_identifier s :: l) = placeholders l.
Proof. reflexivity. Qed.

Lemma placeholders_wrap v l : placeholders (wrap v :: l) = placeholders l.
Proof. unfold wrap. by destruct (is_expression v). Qed.

Lemma placeholders_parameter v l :
  placeholders (parameter v :: l)
  = ((if is_expression v then 0 else 1) + placeholders l)%nat.
Proof. unfold parameter. by destruct (is_expression v). Qed.

Lemma placeholders_wraps vals : placeholders (wrap <$> vals) = 0%nat.
Proof.
  induction vals as [|v vals IH]; [done|].
  rewrite fmap_cons. by rewrite placeholders_wrap.
Qed.

Lemma placeholders_parameters {A} (f : A → variable_t) (l : list A) :
  placeholders (parameter ∘ f <$> l)
  = length (clean_bindings_expression (f <$> l)).
Proof.
  induction l as [|a l IH]; [done|].
  rewrite !fmap_cons. simpl. rewrite placeholders_parameter, IH.
  unfold clean_bindings_expression, pf_support.array_filter. simpl.
  by destruct (is_expression (f a)).
Qed.

Lemma placeholders_section keyword clauses :
  Forall (λ c, ∃ s rest, c = sql_text s :: rest) clauses →
  placeholders (compile_section keyword clauses) = placeholders (mjoin clauses).
Proof.
  unfold compile_section. intros Hclauses.
  destruct Hclauses as [|c clauses (s & rest & ->) _]; [done|].
  reflexivity.
Qed.

Lemma placeholders_mjoin_snoc clauses c :
  placeholders (mjoin (clauses ++ [c]))
  = (placeholders (mjoin clauses) + placeholders c)%nat.
Proof.
  induction clauses as [|c' clauses IH]; simpl.
  - rewrite app_nil_r. lia.
  - rewrite !placeholders_app, IH. lia.
Qed.

Lemma compile_where_connector sub_select sub_wheres w :
  ∃ s rest, compile_where sub_select sub_wheres w = sql_text s :: rest.
Proof. unfold compile_where. eauto. Qed.

Lemma placeholders_wheres_snoc sub_select sub_wheres ws w :
  placeholders (compile_wheres sub_select sub_wheres (ws ++ [w]))
  = (placeholders (compile_wheres sub_select sub_wheres ws)
     + placeholders (compile_where sub_select sub_wheres w))%nat.
Proof.
  unfold compile_wheres.
  rewrite !placeholders_section
    by (apply Forall_fmap, Forall_forall; intros; apply compile_where_connector).
  rewrite fmap_app. cbn [fmap list_fmap]. apply placeholders_mjoin_snoc.
Qed.

Lemma placeholders_havings_snoc hs h :
  placeholders (compile_havings (hs ++ [h]))
  = (placeholders (compile_havings hs) + placeholders (compile_having h))%nat.
Proof.
  unfold compile_havings.
  rewrite !placeholders_section
    by (apply Forall_fmap, Forall_forall; intros; unfold compile_having; simpl; eauto).
  rewrite fmap_app. cbn [fmap list_fmap]. apply placeholders_mjoin_snoc.
Qed.

Lemma placeholders_limit keyword val : placeholders (compile_limit keyword val) = 0%nat.
Proof. unfold compile_limit. by case_bool_decide. Qed.

Lemma placeholders_lock lock : placeholders (compile_lock lock) = 0%nat.
Proof. unfold compile_lock. by repeat case_bool_decide. Qed.

Lemma placeholders_from q : placeholders (compile_from q) = 0%nat.
Proof.
  unfold compile_from, wrap_table. case_bool_decide; [done|].
  by destruct (is_expression _).
Qed.

Lemma placeholders_columns q : placeholders (compile_columns q) = 0%nat.
Proof.
  unfold compile_columns. destruct (aggregate_ q !! "function"); [done|].
  rewrite placeholders_text. destruct (columns_ q) as [|c cols] eqn:Hc; [done|].
  apply placeholders_wraps.
Qed.

Lemma placeholders_groups groups : placeholders (compile_groups groups) = 0%nat.
Proof.
  unfold compile_groups. destruct groups as [|g groups]; [done|].
  rewrite placeholders_text. apply placeholders_wraps.
Qed.

(** The sections of a builder, with the recursion unfolded once. *)
Lemma compile_components_eq q :
  compile_components q =
  [ ("select", compile_columns q);
    ("", compile_from q);
    ("join", compile_joins compile_nested (joins_ q));
    ("where", compile_wheres compile_select compile_nested (wheres_ q));
    ("", compile_groups (groups_ q));
    ("having", compile_havings (havings_ q));
    ("order", compile_orders (orders_ q));
    ("", compile_limit "limit" (limit_ q) ++ compile_limit "offset" (offset_ q));
    ("", compile_lock (lock_ q));
    ("union", compile_unions compile_select (unions_ q));
    ("order", compile_orders (union_orders_ q));
    ("", compile_limit "limit" (union_limit_ q)
         ++ compile_limit "offset" (union_offset_ q)) ].
Proof. by destruct q. Qed.

Lemma placeholder_buckets_length q :
  length (placeholder_buckets q) = placeholders (compile_select q).
Proof.
  unfold placeholder_buckets, compile_select.
  induction (compile_components q) as [|[name section] sections IH]; [done|].
  rewrite bind_cons, fmap_cons, length_app, length_replicate, IH.
  change (mjoin (?x :: ?l)) with (x ++ mjoin l).
  by rewrite placeholders_app.
Qed.

Lemma binding_buckets_length b :
  length (binding_buckets b) = length (get_bindings b).1.
Proof.
  rewrite get_bindings_flat. unfold binding_buckets.
  induction DB_BINDING_KEYS as [|name names IH]; [done|].
  by rewrite !bind_cons, !length_app, length_replicate, IH.
Qed.

(** The compiled text does not depend on the binding store. *)
Lemma compile_select_set_bindings_ m b :
  compile_select (set_bindings_ m b) = compile_select b.
Proof. by destruct b. Qed.

Lemma compile_select_same_members b b' :
  same_members b b' → compile_select b' = compile_select b.
Proof. intros <-. by rewrite compile_select_set_bindings_. Qed.

(** The predicate list of a nested group, with the recursion unfolded once. *)
Lemma compile_nested_eq q :
  compile_nested q = tail (compile_wheres compile_select compile_nested (wheres_ q)).
Proof. by destruct q. Qed.

(** ** What the mutators do to the binding store *)

Lemma same_members_fields b b' :
  same_members b b' →
  wheres_ b' = wheres_ b ∧ havings_ b' = havings_ b ∧ orders_ b' = orders_ b
  ∧ joins_ b' = joins_ b ∧ unions_ b' = unions_ b
  ∧ union_orders_ b' = union_orders_ b.
Proof. intros <-. by destruct b'. Qed.

Lemma same_members_refl b : same_members b b.
Proof. by destruct b. Qed.

Lemma same_members_set_bindings_ m b : same_members b (set_bindings_ m b).
Proof. by destruct b. Qed.

Lemma same_members_trans b1 b2 b3 :
  same_members b1 b2 → same_members b2 b3 → same_members b1 b3.
Proof. unfold same_members. intros <- <-. reflexivity. Qed.

Lemma bucket_insert m b name held name' :
  bucket (set_bindings_ (<[name := held]> m) b) name'
  = if decide (name = name') then held else default [] (m !! name').
Proof.
  unfold bucket. simpl. destruct (decide (name = name')) as [<-|Hne].
  - by rewrite lookup_insert_eq.
  - by rewrite lookup_insert_ne.
Qed.

Lemma add_bindings_Ok b vals name b' :
  add_bindings b vals name = Ok b' →
  same_members b b'
  ∧ bucket b' name = bucket b name ++ vals
  ∧ ∀ name', name' ≠ name → bucket b' name' = bucket b name'.
Proof.
  unfold add_bindings. destruct (bindings_ b !! name) as [held|] eqn:Hheld; [|done].
  intros [= <-]. split; [apply same_members_set_bindings_|]. split.
  - rewrite bucket_insert, decide_True by done. unfold bucket. by rewrite Hheld.
  - intros name' Hne. by rewrite bucket_insert, decide_False.
Qed.

Lemma add_binding_Ok b val name b' :
  add_binding b val name = Ok b' →
  same_members b b'
  ∧ bucket b' name = bucket b name ++ [val]
  ∧ ∀ name', name' ≠ name → bucket b' name' = bucket b name'.
Proof. apply (add_bindings_Ok b [val]). Qed.

Lemma add_each_binding_Ok vals : ∀ b name b',
  add_each_binding b vals name = Ok b' →
  same_members b b'
  ∧ bucket b' name = bucket b name ++ clean_bindings_expression vals
  ∧ ∀ name', name' ≠ name → bucket b' name' = bucket b name'.
Proof.
  induction vals as [|val vals IH]; intros b name b'; simpl.
  - intros [= <-]. split; [apply same_members_refl|].
    split; [by rewrite app_nil_r | done].
  - unfold clean_bindings_expression, pf_support.array_filter in *. simpl.
    destruct (is_expression val); simpl.
    + apply IH.
    + destruct (add_binding b val name) as [b1|msg] eqn:Hadd; [|done].
      simpl. intros Hrest.
      destruct (add_binding_Ok _ _ _ _ Hadd) as (Hsame1 & Hname1 & Hother1).
      destruct (IH _ _ _ Hrest) as (Hsame & Hname & Hother).
      split; [by eapply same_members_trans|]. split.
      * by rewrite Hname, Hname1, <- app_assoc.
      * intros name' Hne. by rewrite Hother, Hother1.
Qed.

(** The ways a call of [where_] ends well: a null test without a binding, a
    comparison with a raw value without a binding, or a comparison with its
    one binding. *)
Lemma where_Ok b column oper val boolean b' :
  where_ b column oper val boolean = Ok b' →
  (∃ isnot, b' = where_null b column boolean isnot)
  ∨ ∃ roper rval,
      (is_expression rval = true
       ∧ b' = push_where (basic_where column roper rval boolean) b)
      ∨ (is_expression rval = false
         ∧ add_binding (push_where (basic_where column roper rval boolean) b)
                       rval "where" = Ok b').
Proof.
  unfold where_.
  destruct (prepare_value_and_operator _ _ _ _) as [[v o]|msg]; simpl; [|done].
  destruct (invalid_operator b (data o));
    (destruct (pf_support.empty _); [intros [= <-]; left; eauto|]);
    (match goal with
     | |- context [push_where (basic_where _ ?r ?x _) _] =>
         destruct (is_expression x) eqn:Hraw; simpl;
         [intros [= <-] | intros Hadd]; right; exists r, x; eauto
     end).
Qed.

(** The same for [having], which has no null shortcut. *)
Lemma having_Ok b column oper val boolean b' :
  having b column oper val boolean = Ok b' →
  ∃ roper rval,
    let b1 := set_havings_
      (havings_ b ++ [basic_having column roper rval boolean]) b in
    (is_expression rval = true ∧ b' = b1)
    ∨ (is_expression rval = false ∧ add_binding b1 rval "having" = Ok b').
Proof.
  unfold having.
  destruct (prepare_value_and_operator _ _ _ _) as [[v o]|msg]; simpl; [|done].
  destruct (invalid_operator b (data o));
    (match goal with
     | |- context [basic_having _ ?r ?x _] =>
         destruct (is_expression x) eqn:Hraw; simpl;
         [intros [= <-] | intros Hadd]; exists r, x; eauto
     end).
Qed.

(** ** Bindings and placeholders of the built states *)

Lemma new_bound_as_rendered grammar : bound_as_rendered (Builder_new grammar).
Proof. by split. Qed.

(** A predicate clause appended together with the values bound for it. *)
Lemma bar_where_step b w held b' :
  bound_as_rendered b →
  same_members (push_where w b) b' →
  bucket b' "where" = bucket b "where" ++ held →
  (∀ name, name ≠ "where" → bucket b' name = bucket b name) →
  placeholders (compile_where compile_select compile_nested w) = length held →
  bound_as_rendered b'.
Proof.
  intros [] Hsame Hwhere Hother Hcount.
  destruct (same_members_fields _ _ Hsame) as (Hw & Hh & Ho & Hj & Hu & Huo).
  simpl in *. split; rewrite ?Hw, ?Hh, ?Ho, ?Hj, ?Hu, ?Huo, ?Hother by done; try done.
  rewrite Hwhere, length_app, placeholders_wheres_snoc. lia.
Qed.

(** The same for a having clause. *)
Lemma bar_having_step b h held b' :
  bound_as_rendered b →
  same_members (set_havings_ (havings_ b ++ [h]) b) b' →
  bucket b' "having" = bucket b "having" ++ held →
  (∀ name, name ≠ "having" → bucket b' name = bucket b name) →
  placeholders (compile_having h) = length held →
  bound_as_rendered b'.
Proof.
  intros [] Hsame Hhaving Hother Hcount.
  destruct (same_members_fields _ _ Hsame) as (Hw & Hh & Ho & Hj & Hu & Huo).
  simpl in *. split; rewrite ?Hw, ?Hh, ?Ho, ?Hj, ?Hu, ?Huo, ?Hother by done; try done.
  rewrite Hhaving, length_app, placeholders_havings_snoc. lia.
Qed.

Lemma bar_where_unbound b w :
  bound_as_rendered b →
  placeholders (compile_where compile_select compile_nested w) = 0%nat →
  bound_as_rendered (push_where w b).
Proof.
  intros Hb Hcount.
  apply (bar_where_step b w [] _ Hb);
    [apply same_members_refl | by rewrite app_nil_r | done | done].
Qed.

Ltac compile_clause :=
  unfold compile_where, compile_having, basic_where, basic_having;
  cbn [items values query];
  unfold lookup_total, map_lookup_total;
  simplify_map_eq; simpl.

Lemma placeholders_basic_where sub_select sub_wheres column roper rval boolean :
  placeholders
    (compile_where sub_select sub_wheres (basic_where column roper rval boolean))
  = if is_expression rval then 0%nat else 1%nat.
Proof.
  compile_clause.
  rewrite placeholders_text, placeholders_wrap, placeholders_text,
    placeholders_parameter.
  by destruct (is_expression rval).
Qed.

Lemma placeholders_basic_having column roper rval boolean :
  placeholders (compile_having (basic_having column roper rval boolean))
  = if is_expression rval then 0%nat else 1%nat.
Proof.
  compile_clause.
  rewrite placeholders_text, placeholders_wrap, placeholders_text,
    placeholders_parameter.
  by destruct (is_expression rval).
Qed.

Lemma where_null_bound_as_rendered b column boolean isnot :
  bound_as_rendered b → bound_as_rendered (where_null b column boolean isnot).
Proof.
  intros Hb. apply bar_where_unbound; [done|].
  destruct isnot; compile_clause;
    by rewrite placeholders_text, placeholders_wrap.
Qed.

Lemma where_bound_as_rendered b column oper val boolean b' :
  bound_as_rendered b → where_ b column oper val boolean = Ok b' →
  bound_as_rendered b'.
Proof.
  intros Hb Hcall.
  destruct (where_Ok _ _ _ _ _ _ Hcall)
    as [[isnot ->]|(roper & rval & [[Hraw ->]|[Hraw Hadd]])].
  - by apply where_null_bound_as_rendered.
  - apply bar_where_unbound; [done|].
    by rewrite placeholders_basic_where, Hraw.
  - destruct (add_binding_Ok _ _ _ _ Hadd) as (Hsame & Hname & Hother).
    eapply bar_where_step; [done | apply Hsame | apply Hname | apply Hother |].
    by rewrite placeholders_basic_where, Hraw.
Qed.

Lemma clean_bindings_expression_Permutation l1 l2 :
  l1 ≡ₚ l2 → clean_bindings_expression l1 ≡ₚ clean_bindings_expression l2.
Proof.
  unfold clean_bindings_expression, pf_support.array_filter.
  induction 1 as [|val l1 l2 _ IH|val1 val2 l|l1 l2 l3 _ IH12 _ IH23]; simpl.
  - done.
  - destruct (is_expression val); simpl; [done | by constructor].
  - destruct (is_expression val1), (is_expression val2); simpl;
      try done; apply perm_swap.
  - by etrans.
Qed.

Lemma placeholders_in_where sub_select sub_wheres column indexed boolean isnot :
  placeholders
    (compile_where sub_select sub_wheres (in_where column indexed boolean isnot))
  = length (clean_bindings_expression (snd <$> map_items indexed)).
Proof.
  unfold compile_where, in_where. cbn [items values query].
  unfold lookup_total, map_lookup_total.
  destruct isnot; simplify_map_eq;
    (destruct (map_items indexed) as [|v0 rest] eqn:Hitems; [done|]);
    rewrite placeholders_text; cbn [bool_decide decide_rel]; simpl "++";
    rewrite placeholders_wrap, placeholders_text;
    change (parameter v0.2 :: (parameter ∘ snd <$> rest) ++ ?close)
      with ((parameter ∘ snd <$> v0 :: rest) ++ close);
    rewrite placeholders_app, placeholders_parameters;
    rewrite placeholders_text; apply Nat.add_0_r.
Qed.

Lemma where_in_bound_as_rendered b column vals boolean isnot b' :
  bound_as_rendered b → where_in b column vals boolean isnot = Ok b' →
  bound_as_rendered b'.
Proof.
  unfold where_in. intros Hb Hcall.
  destruct (add_each_binding_Ok _ _ _ _ Hcall) as (Hsame & Hname & Hother).
  eapply bar_where_step; [done | apply Hsame | apply Hname | apply Hother |].
  rewrite placeholders_in_where.
  apply Permutation_length, clean_bindings_expression_Permutation.
  rewrite map_items_index_values_Permutation.
  unfold indexed_from. by rewrite snd_indexed.
Qed.

Lemma where_column_bound_as_rendered b _first oper second boolean :
  bound_as_rendered b →
  bound_as_rendered (where_column b _first oper second boolean).
Proof.
  intros Hb. unfold where_column.
  destruct (invalid_operator b oper); apply bar_where_unbound; try done;
    compile_clause; by rewrite placeholders_text, !placeholders_wrap.
Qed.

Lemma where_between_bound_as_rendered b column low high boolean isnot b' :
  bound_as_rendered b →
  where_between b column [low; high] boolean isnot = Ok b' →
  bound_as_rendered b'.
Proof.
  unfold where_between. intros Hb Hcall.
  destruct (add_bindings_Ok _ _ _ _ Hcall) as (Hsame & Hname & Hother).
  eapply bar_where_step; [done | apply Hsame | apply Hname | apply Hother |].
  compile_clause. by rewrite placeholders_text, placeholders_wrap.
Qed.

Lemma placeholders_date_where sub_select sub_wheres kind column oper val boolean :
  kind ∈ ["date"; "day"; "month"; "year"] →
  placeholders
    (compile_where sub_select sub_wheres (date_where kind column oper val boolean))
  = if is_expression val then 0%nat else 1%nat.
Proof.
  intros Hkind. rewrite !elem_of_cons, elem_of_nil in Hkind.
  unfold date_where.
  destruct Hkind as [-> | [-> | [-> | [-> | []]]]];
    compile_clause;
    rewrite !placeholders_text, placeholders_wrap, !placeholders_text,
      placeholders_parameter;
    by destruct (is_expression val).
Qed.

Lemma where_date_part_bound_as_rendered kind b column oper val boolean b' :
  bound_as_rendered b →
  kind ∈ ["date"; "day"; "month"; "year"] →
  is_expression val = false →
  where_date_part kind b column oper val boolean = Ok b' →
  bound_as_rendered b'.
Proof.
  unfold where_date_part, add_date_based_where. intros Hb Hkind Hraw.
  destruct (prepare_value_and_operator _ _ _ _) as [[rval roper]|msg] eqn:Hprep;
    simpl; [|done].
  intros Hcall.
  assert (is_expression rval = false) as Hrval.
  { unfold prepare_value_and_operator in Hprep.
    destruct (_ && _); [by injection Hprep as <- _|].
    destruct (invalid_operator_and_value _ _ _); [done|].
    by injection Hprep as <- _. }
  destruct (add_binding_Ok _ _ _ _ Hcall) as (Hsame & Hname & Hother).
  eapply bar_where_step; [done | apply Hsame | apply Hname | apply Hother |].
  by rewrite placeholders_date_where, Hrval.
Qed.

Lemma having_bound_as_rendered b column oper val boolean b' :
  bound_as_rendered b → having b column oper val boolean = Ok b' →
  bound_as_rendered b'.
Proof.
  intros Hb Hcall.
  destruct (having_Ok _ _ _ _ _ _ Hcall)
    as (roper & rval & [[Hraw ->]|[Hraw Hadd]]).
  - eapply (bar_having_step b _ []); [done | apply same_members_refl | | done |].
    + by rewrite app_nil_r.
    + by rewrite placeholders_basic_having, Hraw.
  - destruct (add_binding_Ok _ _ _ _ Hadd) as (Hsame & Hname & Hother).
    eapply bar_having_step; [done | apply Hsame | apply Hname | apply Hother |].
    by rewrite placeholders_basic_having, Hraw.
Qed.

Lemma placeholders_orders_snoc os o :
  placeholders (compile_orders (os ++ [o]))
  = (placeholders (compile_orders os) + placeholders (compile_order o))%nat.
Proof.
  unfold compile_orders.
  destruct (os ++ [o]) as [|o' os'] eqn:Hsnoc; [by destruct os|].
  rewrite <- Hsnoc, placeholders_text, fmap_app. cbn [fmap list_fmap].
  rewrite placeholders_mjoin_snoc. by destruct os.
Qed.

Lemma order_by_bound_as_rendered b column direction :
  bound_as_rendered b → bound_as_rendered (order_by b column direction).
Proof.
  intros []. unfold order_by. rewrite bar_unions0. simpl.
  split; simpl; try done.
  rewrite placeholders_orders_snoc, bar_orders0.
  unfold compile_order, column_order, lookup_total, map_lookup_total.
  simplify_map_eq. simpl. by rewrite placeholders_wrap.
Qed.

Lemma group_by_bound_as_rendered b groups :
  bound_as_rendered b → bound_as_rendered (group_by b groups).
Proof. by intros []. Qed.

Lemma limit_bound_as_rendered b val :
  bound_as_rendered b → bound_as_rendered (limit b val).
Proof.
  intros Hb. unfold limit. case_bool_decide; [|done].
  destruct Hb. by rewrite bar_unions0.
Qed.

Lemma offset_bound_as_rendered b val :
  bound_as_rendered b → bound_as_rendered (offset b val).
Proof. intros []. unfold offset. by rewrite bar_unions0. Qed.

Lemma built_bound_as_rendered b : built b → bound_as_rendered b.
Proof.
  induction 1 as
    [ grammar
    | b column oper val boolean b' _ IH Hcall
    | b column vals boolean isnot b' _ IH Hcall
    | b column boolean isnot _ IH
    | b _first oper second boolean _ IH
    | b column low high boolean isnot b' _ IH Hcall
    | kind b column oper val boolean b' _ IH Hkind Hraw Hcall
    | b column oper val boolean b' _ IH Hcall
    | b groups _ IH
    | b column direction _ IH
    | b val _ IH
    | b val _ IH ].
  - apply new_bound_as_rendered.
  - exact (where_bound_as_rendered _ _ _ _ _ _ IH Hcall).
  - exact (where_in_bound_as_rendered _ _ _ _ _ _ IH Hcall).
  - by apply where_null_bound_as_rendered.
  - by apply where_column_bound_as_rendered.
  - exact (where_between_bound_as_rendered _ _ _ _ _ _ _ IH Hcall).
  - exact (where_date_part_bound_as_rendered _ _ _ _ _ _ _ IH Hkind Hraw Hcall).
  - exact (having_bound_as_rendered _ _ _ _ _ _ IH Hcall).
  - by apply group_by_bound_as_rendered.
  - by apply order_by_bound_as_rendered.
  - by apply limit_bound_as_rendered.
  - by apply offset_bound_as_rendered.
Qed.

(** With every bucket as long as its section has placeholders, the bucket
    names of the flat bindings and of the placeholders agree in order. *)
Lemma bound_as_rendered_buckets b :
  bound_as_rendered b → binding_buckets b = placeholder_buckets b.
Proof.
  intros [].
  unfold placeholder_buckets, binding_buckets, DB_BINDING_KEYS.
  rewrite compile_components_eq, !bind_cons. cbn [fst snd].
  rewrite bar_select0, bar_join0, bar_order0, bar_union0, bar_where0, bar_having0.
  rewrite bar_joins0, bar_unions0, bar_union_orders0.
  rewrite placeholders_columns, placeholders_from, placeholders_groups, bar_orders0,
    placeholders_lock, !placeholders_app, !placeholders_limit.
  reflexivity.
Qed.

Lemma adults_query_built : built adults_query.
Proof.
  eapply built_where; [apply (built_new plain_grammar)|].
  instantiate (1 := "and"). instantiate (1 := variable_of_int32 18).
  instantiate (1 := variable_of_string ">"). instantiate (1 := "age").
  vm_compute. reflexivity.
Defined.

(** ** Bindings in step with the markers of the assembled states *)

Lemma markers_app l1 l2 : markers (l1 ++ l2) = markers l1 ++ markers l2.
Proof. apply omap_app. Qed.


















(** ** Bindings in step with markers *)



Lemma in_step_app bindings1 sql1 bindings2 sql2 :
  in_step bindings1 sql1 → in_step bindings2 sql2 →
  in_step (bindings1 ++ bindings2) (sql1 ++ sql2).
Proof. unfold in_step. rewrite markers_app. apply Forall2_app. Qed.


Lemma in_step_values vals :
  in_step vals (sql_placeholder ∘ Some <$> vals).
Proof.
  unfold in_step. induction vals as [|val vals IH]; [constructor|].
  rewrite fmap_cons. simpl. constructor; [|exact IH].
  by intros value [= ->].
Qed.

(** ** Sub-queries *)




(** ** The calls that keep the buckets in step *)























































(** ** C1 *)



(** Another state out of step: after [where_date("created_at", "=", raw)]
    the raw value is bound although it is rendered in place. *)
Lemma raw_date_value_without_placeholder :
  ∃ b', where_date (Builder_new plain_grammar) "created_at" "=" raw_now "and" = Ok b'
        ∧ (get_bindings b').1 = [raw_now]
        ∧ placeholders (compile_select b') = 0%nat.
Proof. eexists. split; [vm_compute; reflexivity|]. split; reflexivity. Qed.



(** ** C2 *)

Lemma binds_nothing b b' :
  (∀ name, bucket b' name = bucket b name) → binds_no_expression b b'.
Proof. intros Hsame name. exists []. by rewrite app_nil_r, Hsame. Qed.

Lemma binds_no_expression_one b b' name held :
  bucket b' name = bucket b name ++ held →
  (∀ name', name' ≠ name → bucket b' name' = bucket b name') →
  Forall (λ val, is_expression val = false) held →
  binds_no_expression b b'.
Proof.
  intros Hname Hother Hheld name'.
  destruct (decide (name' = name)) as [->|Hne]; [by exists held|].
  exists []. by rewrite app_nil_r, Hother.
Qed.

(** [where] keeps raw expressions out of the binding store. *)
Lemma where_binds_no_expression b column oper val boolean b' :
  where_ b column oper val boolean = Ok b' → binds_no_expression b b'.
Proof.
  intros Hcall.
  destruct (where_Ok _ _ _ _ _ _ Hcall)
    as [[isnot ->]|(roper & rval & [[Hraw ->]|[Hraw Hadd]])].
  - by apply binds_nothing.
  - by apply binds_nothing.
  - destruct (add_binding_Ok _ _ _ _ Hadd) as (_ & Hname & Hother).
    apply (binds_no_expression_one _ _ "where" [rval]); auto.
Qed.

(** So does [where_in]. *)
Lemma where_in_binds_no_expression b column vals boolean isnot b' :
  where_in b column vals boolean isnot = Ok b' → binds_no_expression b b'.
Proof.
  unfold where_in. intros Hcall.
  destruct (add_each_binding_Ok _ _ _ _ Hcall) as (_ & Hname & Hother).
  apply (binds_no_expression_one _ _ "where" (clean_bindings_expression vals));
    [done | done |].
  unfold clean_bindings_expression, pf_support.array_filter.
  apply Forall_forall. intros val Hval.
  apply list_elem_of_In, List.filter_In in Hval as [_ Hval].
  by destruct (is_expression val).
Qed.

(** So does [having]. *)
Lemma having_binds_no_expression b column oper val boolean b' :
  having b column oper val boolean = Ok b' → binds_no_expression b b'.
Proof.
  intros Hcall.
  destruct (having_Ok _ _ _ _ _ _ Hcall)
    as (roper & rval & [[Hraw ->]|[Hraw Hadd]]).
  - by apply binds_nothing.
  - destruct (add_binding_Ok _ _ _ _ Hadd) as (_ & Hname & Hother).
    apply (binds_no_expression_one _ _ "having" [rval]); auto.
Qed.

(** C2.  The claim that no predicate mutator appends a raw expression to a
    binding bucket is broken by [add_date_based_where] and [where_between],
    which bind their values unfiltered: [where_date("created_at", "=", raw)]
    and [where_between("created_at", {raw, raw})] on a new builder leave the
    raw expression in the where bucket. *)
Theorem where_date_binds_raw_expression :
  is_expression raw_now = true
  ∧ (∃ b', where_date (Builder_new plain_grammar) "created_at" "=" raw_now "and"
             = Ok b'
           ∧ bucket b' "where" = [raw_now])
  ∧ (∃ b', where_between (Builder_new plain_grammar) "created_at"
             [raw_now; raw_now] "and" false = Ok b'
           ∧ bucket b' "where" = [raw_now; raw_now]).
Proof.
  split; [reflexivity|].
  split; eexists; (split; [vm_compute; reflexivity | vm_compute; reflexivity]).
Qed.

(** ** C3 *)

Lemma where_null_spec b column boolean isnot :
  bindings_ (where_null b column boolean isnot) = bindings_ b
  ∧ ∃ w, wheres_ (where_null b column boolean isnot) = wheres_ b ++ [w]
         ∧ items w !! "type"
           = Some (variable_of_string (if isnot then "notnull" else "null"))
         ∧ items w !! "column" = Some (variable_of_string column)
         ∧ items w !! "boolean" = Some (variable_of_string boolean).
Proof. split; [done|]. eexists. split; [reflexivity|]. by simplify_map_eq. Qed.

(** [where] in terms of the resolved value and operator. *)
Lemma where_resolved b column oper val boolean rval roper :
  resolved_value_and_operator b oper val boolean = Ok (rval, roper) →
  where_ b column oper val boolean =
    if pf_support.empty rval
    then Ok (where_null b column boolean (negb (var_eq roper "=")))
    else
      let rval :=
        if pf_support.contains column "->"
           && bool_decide (type rval = kVariableTypeBool)
        then json_boolean rval
        else rval in
      let b := push_where (basic_where column roper rval boolean) b in
      if negb (is_expression rval) then add_binding b rval "where" else Ok b.
Proof.
  unfold resolved_value_and_operator, where_.
  destruct (prepare_value_and_operator _ _ _ _) as [[v o]|msg]; simpl; [|done].
  destruct (invalid_operator b (data o)); by intros [= <- <-].
Qed.

(** What [where] does with a resolved value that is not empty: a basic
    clause, and the value of the clause bound unless it is raw. *)
Lemma where_basic b column oper val boolean rval roper :
  resolved_value_and_operator b oper val boolean = Ok (rval, roper) →
  pf_support.empty rval = false →
  is_Some (bindings_ b !! "where") →
  let stored :=
    if pf_support.contains column "->" && bool_decide (type rval = kVariableTypeBool)
    then json_boolean rval else rval in
  ∃ b' w,
    where_ b column oper val boolean = Ok b'
    ∧ wheres_ b' = wheres_ b ++ [w]
    ∧ items w !! "type" = Some (variable_of_string "basic")
    ∧ items w !! "column" = Some (variable_of_string column)
    ∧ items w !! "operator" = Some roper
    ∧ items w !! "value" = Some stored
    ∧ items w !! "boolean" = Some (variable_of_string boolean)
    ∧ values w = ∅
    ∧ query w = None
    ∧ bucket b' "where"
      = bucket b "where" ++ (if is_expression stored then [] else [stored])
    ∧ ∀ name, name ≠ "where" → bucket b' name = bucket b name.
Proof.
  intros Hresolved Hempty [held Hheld] stored.
  rewrite (where_resolved _ _ _ _ _ _ _ Hresolved), Hempty. cbn zeta.
  fold stored.
  assert (∀ w : db_query_array_t Builder,
            w = basic_where column roper stored boolean →
            items w !! "type" = Some (variable_of_string "basic")
            ∧ items w !! "column" = Some (variable_of_string column)
            ∧ items w !! "operator" = Some roper
            ∧ items w !! "value" = Some stored
            ∧ items w !! "boolean" = Some (variable_of_string boolean)
            ∧ values w = ∅
            ∧ query w = None) as Hclause.
  { intros w ->. unfold basic_where. cbn [items values query].
    by simplify_map_eq. }
  destruct (is_expression stored) eqn:Hraw; cbn [negb].
  - exists (push_where (basic_where column roper stored boolean) b),
      (basic_where column roper stored boolean).
    split; [done|]. split; [done|].
    destruct (Hclause _ eq_refl) as (? & ? & ? & ? & ? & ? & ?).
    split_and!; try done. by rewrite app_nil_r.
  - destruct (add_binding
                (push_where (basic_where column roper stored boolean) b)
                stored "where") as [b'|msg] eqn:Hadd.
    + destruct (add_binding_Ok _ _ _ _ Hadd) as (Hsame & Hname & Hother).
      destruct (same_members_fields _ _ Hsame) as (Hwheres & _).
      exists b', (basic_where column roper stored boolean).
      split; [done|]. split; [done|].
      destruct (Hclause _ eq_refl) as (? & ? & ? & ? & ? & ? & ?).
      by split_and!.
    + unfold add_binding in Hadd. simpl in Hadd. by rewrite Hheld in Hadd.
Qed.

(** C3.  A call of [where] without a value (the value argument is the empty
    text and the connector is "and") resolves to the second argument as the
    value and "=" as the operator, and is the call with the operator "=" and
    that value.  When the resolved value is empty the call appends a null
    clause on the column, a not-null clause when the resolved operator is not
    "=", and leaves the binding store as it is.  When the resolved value is
    not empty the call appends a basic clause instead - its type is basic, with
    the column, the resolved operator, the value and the connector - and binds
    the value of the clause, once, unless that value is a raw expression; a
    boolean compared on a JSON path is stored as a raw boolean.  So a value
    that is neither empty nor raw, and no boolean on a JSON path, gives a basic
    clause and exactly one binding, the value itself.  Emptiness is that of
    the text: the integer zero is not empty, and compared with "=" it appends
    a basic clause and exactly one binding. *)
Theorem where_shorthand_null_and_zero (b : Builder) (column : string) :
  (∀ value val,
     var_eq val "" = true → invalid_operator b "=" = false →
     resolved_value_and_operator b value val "and"
     = Ok (value, variable_of_string "="))
  ∧ (∀ value val,
       var_eq val "" = true → pf_support.empty value = false →
       where_ b column value val "and"
       = where_ b column (variable_of_string "=") value "and")
  ∧ (∀ oper val boolean rval roper,
       resolved_value_and_operator b oper val boolean = Ok (rval, roper) →
       pf_support.empty rval = true →
       let b' := where_null b column boolean (negb (var_eq roper "=")) in
       where_ b column oper val boolean = Ok b'
       ∧ bindings_ b' = bindings_ b
       ∧ ∃ w, wheres_ b' = wheres_ b ++ [w]
              ∧ items w !! "type"
                = Some (variable_of_string
                          (if var_eq roper "=" then "null" else "notnull"))
              ∧ items w !! "column" = Some (variable_of_string column)
              ∧ items w !! "boolean" = Some (variable_of_string boolean))
  ∧ (∀ oper val boolean rval roper,
       resolved_value_and_operator b oper val boolean = Ok (rval, roper) →
       pf_support.empty rval = false →
       is_Some (bindings_ b !! "where") →
       let stored :=
         if pf_support.contains column "->"
            && bool_decide (type rval = kVariableTypeBool)
         then json_boolean rval else rval in
       ∃ b' w,
         where_ b column oper val boolean = Ok b'
         ∧ wheres_ b' = wheres_ b ++ [w]
         ∧ items w !! "type" = Some (variable_of_string "basic")
         ∧ items w !! "column" = Some (variable_of_string column)
         ∧ items w !! "operator" = Some roper
         ∧ items w !! "value" = Some stored
         ∧ items w !! "boolean" = Some (variable_of_string boolean)
         ∧ values w = ∅
         ∧ query w = None
         ∧ bucket b' "where"
           = bucket b "where" ++ (if is_expression stored then [] else [stored])
         ∧ (∀ name, name ≠ "where" → bucket b' name = bucket b name)
         ∧ (is_expression rval = false →
            pf_support.contains column "->"
            && bool_decide (type rval = kVariableTypeBool) = false →
            items w !! "value" = Some rval
            ∧ bucket b' "where" = bucket b "where" ++ [rval]))
  ∧ (pf_support.empty (variable_of_int32 0) = false
     ∧ is_expression (variable_of_int32 0) = false
     ∧ ∀ boolean,
         invalid_operator b "=" = false → is_Some (bindings_ b !! "where") →
         ∃ b' w,
           where_ b column (variable_of_string "=") (variable_of_int32 0) boolean
             = Ok b'
           ∧ wheres_ b' = wheres_ b ++ [w]
           ∧ items w !! "type" = Some (variable_of_string "basic")
           ∧ items w !! "operator" = Some (variable_of_string "=")
           ∧ items w !! "value" = Some (variable_of_int32 0)
           ∧ bucket b' "where" = bucket b "where" ++ [variable_of_int32 0]).
Proof.
  assert (∀ oper val boolean rval roper,
       resolved_value_and_operator b oper val boolean = Ok (rval, roper) →
       pf_support.empty rval = false →
       is_Some (bindings_ b !! "where") →
       let stored :=
         if pf_support.contains column "->"
            && bool_decide (type rval = kVariableTypeBool)
         then json_boolean rval else rval in
       ∃ b' w,
         where_ b column oper val boolean = Ok b'
         ∧ wheres_ b' = wheres_ b ++ [w]
         ∧ items w !! "type" = Some (variable_of_string "basic")
         ∧ items w !! "column" = Some (variable_of_string column)
         ∧ items w !! "operator" = Some roper
         ∧ items w !! "value" = Some stored
         ∧ items w !! "boolean" = Some (variable_of_string boolean)
         ∧ values w = ∅
         ∧ query w = None
         ∧ bucket b' "where"
           = bucket b "where" ++ (if is_expression stored then [] else [stored])
         ∧ (∀ name, name ≠ "where" → bucket b' name = bucket b name)
         ∧ (is_expression rval = false →
            pf_support.contains column "->"
            && bool_decide (type rval = kVariableTypeBool) = false →
            items w !! "value" = Some rval
            ∧ bucket b' "where" = bucket b "where" ++ [rval])) as Hbasic.
  { intros oper val boolean rval roper Hresolved Hempty Hbucket stored.
    destruct (where_basic b column oper val boolean rval roper Hresolved Hempty Hbucket)
      as (b' & w & Hcall & Hwheres & Htype & Hcolumn & Hoper & Hvalue & Hboolean
          & Hvalues & Hquery & Hwhere & Hother).
    exists b', w. split_and!; try done.
    intros Hraw Hjson. fold stored in Hvalue, Hwhere.
    unfold stored in *. rewrite Hjson in *. by rewrite Hraw in Hwhere. }
  split; [|split; [|split; [|split; [exact Hbasic|]]]].
  - intros value val Hval Hoperator.
    unfold resolved_value_and_operator, prepare_value_and_operator.
    rewrite Hval. rewrite bool_decide_true by done. simpl. by rewrite Hoperator.
  - intros value val Hval Hvalue. unfold where_.
    assert (prepare_value_and_operator b val value
              (var_eq val "" && bool_decide ("and" = "and"))
            = Ok (value, variable_of_string "=")) as ->.
    { unfold prepare_value_and_operator. by rewrite Hval. }
    assert (prepare_value_and_operator b value (variable_of_string "=")
              (var_eq value "" && bool_decide ("and" = "and"))
            = Ok (value, variable_of_string "=")) as ->; [|done].
    unfold prepare_value_and_operator, invalid_operator_and_value.
    change (var_eq value "") with (pf_support.empty value). rewrite Hvalue.
    change (pf_support.in_array (data (variable_of_string "=")) ["="; "<>"; "!="])
      with true.
    by rewrite andb_false_r.
  - intros oper val boolean rval roper Hresolved Hempty b'.
    rewrite (where_resolved _ _ _ _ _ _ _ Hresolved), Hempty.
    destruct (where_null_spec b column boolean (negb (var_eq roper "=")))
      as (Hbindings & w & Hwheres & Htype & Hcolumn & Hboolean).
    split; [done|]. split; [done|]. exists w. split; [done|].
    rewrite Htype. split; [by destruct (var_eq roper "=") | done].
  - split; [reflexivity|]. split; [reflexivity|].
    intros boolean Hoperator Hbucket.
    assert (resolved_value_and_operator b (variable_of_string "=")
              (variable_of_int32 0) boolean
            = Ok (variable_of_int32 0, variable_of_string "=")) as Hresolved.
    { unfold resolved_value_and_operator, prepare_value_and_operator.
      change (var_eq (variable_of_int32 0) "") with false. simpl.
      unfold invalid_operator_and_value.
      change (pf_support.in_array (data (variable_of_string "=")) ["="; "<>"; "!="])
        with true.
      by rewrite Hoperator. }
    destruct (Hbasic _ _ _ _ _ Hresolved eq_refl Hbucket)
      as (b' & w & Hcall & Hwheres & Htype & _ & Hoper & _ & _ & _ & _ & _ & _ & Hone).
    destruct Hone as [Hvalue Hwhere]; [reflexivity | apply andb_false_r |].
    exists b', w. by split_and!.
Qed.

Lemma where_shorthand_null_and_zero_witness :
  (* where("age", 18) resolves to the value 18 and the operator "=" *)
  resolved_value_and_operator (Builder_new plain_grammar)
    (variable_of_int32 18) (variable_of_string "") "and"
  = Ok (variable_of_int32 18, variable_of_string "=")
  (* where("age", 18) is where("age", "=", 18) *)
  ∧ where_ (Builder_new plain_grammar) "age" (variable_of_int32 18)
      (variable_of_string "") "and"
    = where_ (Builder_new plain_grammar) "age" (variable_of_string "=")
        (variable_of_int32 18) "and"
  (* where("deleted_at", "<>", "", "or") appends a not-null clause *)
  ∧ where_ (Builder_new plain_grammar) "deleted_at" (variable_of_string "<>")
      (variable_of_string "") "or"
    = Ok (where_null (Builder_new plain_grammar) "deleted_at" "or" true)
  (* where("name", "like", "a%") appends a basic clause and binds the text *)
  ∧ (∃ b' w, where_ (Builder_new plain_grammar) "name" (variable_of_string "like")
               (variable_of_string "a%") "and" = Ok b'
             ∧ wheres_ b' = [w]
             ∧ items w !! "type" = Some (variable_of_string "basic")
             ∧ items w !! "operator" = Some (variable_of_string "like")
             ∧ items w !! "value" = Some (variable_of_string "a%")
             ∧ bucket b' "where" = [variable_of_string "a%"])
  (* where("votes", "=", 0) appends a basic clause and binds the zero *)
  ∧ ∃ b' w, where_ (Builder_new plain_grammar) "votes" (variable_of_string "=")
              (variable_of_int32 0) "and" = Ok b'
            ∧ wheres_ b' = [w]
            ∧ items w !! "type" = Some (variable_of_string "basic")
            ∧ items w !! "value" = Some (variable_of_int32 0)
            ∧ bucket b' "where" = [variable_of_int32 0].
Proof.
  split; [|split; [|split; [|split]]].
  - destruct (where_shorthand_null_and_zero (Builder_new plain_grammar) "age")
      as (Hresolved & _).
    apply Hresolved; reflexivity.
  - destruct (where_shorthand_null_and_zero (Builder_new plain_grammar) "age")
      as (_ & Htwo & _).
    apply Htwo; reflexivity.
  - destruct (where_shorthand_null_and_zero (Builder_new plain_grammar) "deleted_at")
      as (_ & _ & Hnull & _).
    apply (Hnull (variable_of_string "<>") (variable_of_string "") "or"
                 (variable_of_string "") (variable_of_string "<>"));
      vm_compute; reflexivity.
  - destruct (where_shorthand_null_and_zero (Builder_new plain_grammar) "name")
      as (_ & _ & _ & Hbasic & _).
    destruct (Hbasic (variable_of_string "like") (variable_of_string "a%") "and"
                (variable_of_string "a%") (variable_of_string "like"))
      as (b' & w & Hcall & Hwheres & Htype & _ & Hoper & _ & _ & _ & _ & _ & _ & Hone);
      [vm_compute; reflexivity | vm_compute; reflexivity | vm_compute; eauto |].
    destruct Hone as [Hvalue Hbucket]; [reflexivity | reflexivity |].
    exists b', w. split; [exact Hcall|]. split; [exact Hwheres|].
    split; [exact Htype|]. split; [exact Hoper|]. split; [exact Hvalue | exact Hbucket].
  - destruct (where_shorthand_null_and_zero (Builder_new plain_grammar) "votes")
      as (_ & _ & _ & _ & _ & _ & Hzero).
    destruct (Hzero "and")
      as (b' & w & Hcall & Hwheres & Htype & _ & Hvalue & Hbucket);
      [vm_compute; reflexivity | vm_compute; eauto |].
    exists b', w. split; [exact Hcall|]. split; [exact Hwheres|].
    split; [exact Htype|]. split; [exact Hvalue | exact Hbucket].
Defined.

(** ** C4 *)

(** C4, as stated, fails: in [where("age", ">", "")] the value is empty and
    the operator is a baseline operator other than =, <> and !=, yet the call
    is no usage error: the empty value and the connector "and" select the
    two-argument default before the combination is checked, and a comparison
    of age with the text ">" is appended and bound. *)
Lemma default_precedes_operator_check :
  invalid_operator_and_value (Builder_new plain_grammar)
    (variable_of_string ">") (variable_of_string "") = true
  ∧ prepare_value_and_operator (Builder_new plain_grammar)
      (variable_of_string "") (variable_of_string ">") true
    = Ok (variable_of_string ">", variable_of_string "=")
  ∧ ∃ b', where_ (Builder_new plain_grammar) "age" (variable_of_string ">")
            (variable_of_string "") "and" = Ok b'
          ∧ wheres_ b' = [basic_where "age" (variable_of_string "=")
                            (variable_of_string ">") "and"]
          ∧ bucket b' "where" = [variable_of_string ">"].
Proof.
  split; [reflexivity|]. split; [reflexivity|].
  eexists. split; [vm_compute; reflexivity|]. split; reflexivity.
Qed.

(** C4 (amended).  For every operator and value passed to [where], [having]
    or a date-part predicate: under the two-argument default (the value
    argument is the empty text and the connector is "and") the pair is
    prepared as the operator argument for the value and "=" for the
    operator, whatever the combination; otherwise, if the value is empty and
    the operator is in the builder's operator list and is none of =, <> and
    !=, the call is a usage error and no clause is appended; otherwise
    [prepare_value_and_operator] returns the pair unchanged. *)
Theorem illegal_operator_and_value (b : Builder) (column : string)
    (oper val : variable_t) (boolean : string) :
  let use_default := var_eq val "" && bool_decide ("and" = boolean) in
  let illegal :=
    pf_support.empty val = true ∧ data oper ∈ operators_ b
    ∧ data oper ∉ ["="; "<>"; "!="] in
  (use_default = true →
     prepare_value_and_operator b val oper use_default
     = Ok (oper, variable_of_string "="))
  ∧ (use_default = false → illegal →
       prepare_value_and_operator b val oper use_default
         = AssertEx illegal_combination
       ∧ where_ b column oper val boolean = AssertEx illegal_combination
       ∧ having b column oper val boolean = AssertEx illegal_combination
       ∧ ∀ kind, where_date_part kind b column (data oper) val boolean
                 = AssertEx illegal_combination)
  ∧ (use_default = false → ¬ illegal →
       prepare_value_and_operator b val oper use_default = Ok (val, oper)).
Proof.
  intros use_default illegal.
  assert (invalid_operator_and_value b oper val = true ↔ illegal) as Hillegal.
  { unfold invalid_operator_and_value, illegal, pf_support.in_array, var_eq,
      pf_support.empty.
    rewrite !andb_true_iff, negb_true_iff, orb_diag.
    rewrite !bool_decide_eq_true, bool_decide_eq_false. tauto. }
  split; [|split].
  - intros Hdefault. unfold prepare_value_and_operator. by rewrite Hdefault.
  - intros Hdefault Hcase. apply Hillegal in Hcase.
    assert (prepare_value_and_operator b val oper use_default
            = AssertEx illegal_combination) as Hprepare.
    { unfold prepare_value_and_operator. by rewrite Hdefault, Hcase. }
    split; [done|]. unfold where_, having. fold use_default.
    rewrite Hprepare. split; [done|]. split; [done|].
    intros kind. unfold where_date_part. fold use_default.
    unfold prepare_value_and_operator. rewrite Hdefault.
    unfold invalid_operator_and_value in *. simpl in *. by rewrite Hcase.
  - intros Hdefault Hcase. unfold prepare_value_and_operator.
    rewrite Hdefault.
    destruct (invalid_operator_and_value b oper val); [|done].
    destruct Hcase. by apply Hillegal.
Qed.

Lemma illegal_operator_and_value_witness :
  (* where("age", 18): the default *)
  prepare_value_and_operator (Builder_new plain_grammar)
    (variable_of_string "") (variable_of_int32 18) true
  = Ok (variable_of_int32 18, variable_of_string "=")
  (* where("age", ">", "", "or"): a usage error *)
  ∧ where_ (Builder_new plain_grammar) "age" (variable_of_string ">")
      (variable_of_string "") "or" = AssertEx illegal_combination
  (* where("age", ">", 18): the pair as it is *)
  ∧ prepare_value_and_operator (Builder_new plain_grammar)
      (variable_of_int32 18) (variable_of_string ">") false
    = Ok (variable_of_int32 18, variable_of_string ">").
Proof.
  split; [|split].
  - apply (illegal_operator_and_value (Builder_new plain_grammar) "age"
             (variable_of_int32 18) (variable_of_string "") "and").
    reflexivity.
  - apply (illegal_operator_and_value (Builder_new plain_grammar) "age"
             (variable_of_string ">") (variable_of_string "") "or").
    + reflexivity.
    + split; [reflexivity|].
      split; compute_done.
  - apply (illegal_operator_and_value (Builder_new plain_grammar) "age"
             (variable_of_string ">") (variable_of_int32 18) "and").
    + reflexivity.
    + intros [Hempty _]. discriminate Hempty.
Defined.

(** ** C5 *)

Lemma compile_section_last keyword clauses c x :
  (∃ s, c = [sql_text s; x]) →
  ∃ front, compile_section keyword (clauses ++ [c]) = front ++ [x].
Proof.
  intros [s ->]. unfold compile_section. rewrite join_app. simpl.
  destruct (mjoin clauses) as [|f rest].
  - by exists [sql_text keyword].
  - exists (sql_text keyword :: rest ++ [sql_text s]). simpl.
    by rewrite <- app_assoc.
Qed.

Lemma compile_select_where_section q :
  ∃ front back,
    compile_select q
    = front ++ compile_wheres compile_select compile_nested (wheres_ q) ++ back.
Proof.
  unfold compile_select at 1. rewrite compile_components_eq.
  exists (compile_columns q ++ compile_from q
          ++ compile_joins compile_nested (joins_ q)).
  eexists.
  rewrite !fmap_cons. cbn [snd].
  change (mjoin (?x :: ?l)) with (x ++ mjoin l).
  rewrite <- !app_assoc. do 3 f_equal.
Qed.

(** C5.  [where_in(column, {})] appends an in-clause and adds no binding, and
    the clause compiles to a condition that holds for no row;
    [where_in(column, {}, boolean, true)] appends a not-in clause that
    compiles to a condition that holds for every row.  The compiled select
    statement of the builder carries that condition: compilation is a total
    function and has a result on the empty list. *)
Theorem where_in_empty_list (b : Builder) (column boolean : string) (isnot : bool) :
  let constant := if isnot then sql_static_true else sql_static_false in
  ∃ b',
    where_in b column [] boolean isnot = Ok b'
    ∧ wheres_ b' = wheres_ b ++ [in_where column ∅ boolean isnot]
    ∧ items (in_where column ∅ boolean isnot) !! "type"
      = Some (variable_of_string (if isnot then "notin" else "in"))
    ∧ bindings_ b' = bindings_ b
    ∧ (∀ sub_select sub_wheres,
         compile_where sub_select sub_wheres (in_where column ∅ boolean isnot)
         = [sql_text boolean; constant])
    ∧ constant ∈ compile_select b'.
Proof.
  intros constant. exists (push_where (in_where column ∅ boolean isnot) b).
  split; [reflexivity|].
  split; [reflexivity|]. split; [by destruct isnot|]. split; [reflexivity|].
  assert (∀ sub_select sub_wheres,
            compile_where sub_select sub_wheres (in_where column ∅ boolean isnot)
            = [sql_text boolean; constant]) as Hclause.
  { intros. unfold constant, compile_where, in_where. cbn [items values query].
    rewrite map_items_empty. unfold lookup_total, map_lookup_total.
    by destruct isnot; simplify_map_eq. }
  split; [done|].
  destruct (compile_select_where_section
              (push_where (in_where column ∅ boolean isnot) b))
    as (front & back & ->).
  destruct (compile_section_last "where"
              (compile_where compile_select compile_nested <$> wheres_ b)
              (compile_where compile_select compile_nested
                 (in_where column ∅ boolean isnot)) constant) as [pre Hpre].
  { rewrite Hclause. eauto. }
  unfold compile_wheres. simpl. rewrite fmap_app. cbn [fmap list_fmap].
  rewrite Hpre. set_solver.
Qed.

(** ** C6 *)

(** C6.  While the union list is empty, [order_by] and [order_byraw] append
    to the base order list, [offset] and [limit] write the base offset and
    limit, and the union-specific order list, offset and limit stay as they
    are.  Once the union list is not empty - as it is after [_union] - the
    same calls append to the union order list and write the union offset and
    limit, and the base order list, offset and limit stay as they are.  None
    of the four calls changes the union list, so the routing holds for every
    later call.  ([offset] stores the value raised to zero when negative;
    [limit] stores a value that is not negative and ignores any other.) *)
Theorem union_routes_order_limit_offset (b : Builder) :
  (unions_ b = [] →
     (∀ column direction,
        orders_ (order_by b column direction)
          = orders_ b ++ [column_order column direction]
        ∧ union_orders_ (order_by b column direction) = union_orders_ b)
     ∧ (∀ sql bindings b', order_byraw b sql bindings = Ok b' →
          orders_ b' = orders_ b ++ [raw_order sql]
          ∧ union_orders_ b' = union_orders_ b)
     ∧ (∀ val,
          offset_ (offset b val) = Z.max 0 val
          ∧ union_offset_ (offset b val) = union_offset_ b)
     ∧ (∀ val,
          limit_ (limit b val) = (if bool_decide (0 ≤ val) then val else limit_ b)
          ∧ union_limit_ (limit b val) = union_limit_ b))
  ∧ (unions_ b ≠ [] →
     (∀ column direction,
        union_orders_ (order_by b column direction)
          = union_orders_ b ++ [column_order column direction]
        ∧ orders_ (order_by b column direction) = orders_ b)
     ∧ (∀ sql bindings b', order_byraw b sql bindings = Ok b' →
          union_orders_ b' = union_orders_ b ++ [raw_order sql]
          ∧ orders_ b' = orders_ b)
     ∧ (∀ val,
          union_offset_ (offset b val) = Z.max 0 val
          ∧ offset_ (offset b val) = offset_ b)
     ∧ (∀ val,
          union_limit_ (limit b val)
            = (if bool_decide (0 ≤ val) then val else union_limit_ b)
          ∧ limit_ (limit b val) = limit_ b))
  ∧ (∀ query all b', _union b query all = Ok b' → unions_ b' ≠ [])
  ∧ (∀ column direction, unions_ (order_by b column direction) = unions_ b)
  ∧ (∀ sql bindings b', order_byraw b sql bindings = Ok b' → unions_ b' = unions_ b)
  ∧ (∀ val, unions_ (offset b val) = unions_ b)
  ∧ (∀ val, unions_ (limit b val) = unions_ b).
Proof.
  assert (∀ sql bindings b', order_byraw b sql bindings = Ok b' →
            same_members
              (if bool_decide (unions_ b = [])
               then set_orders_ (orders_ b ++ [raw_order sql]) b
               else set_union_orders_ (union_orders_ b ++ [raw_order sql]) b)
              b') as Hraw.
  { intros sql bindings b' Hcall. unfold order_byraw in Hcall.
    by destruct (add_bindings_Ok _ _ _ _ Hcall) as (Hsame & _). }
  split; [|split; [|split; [|split; [|split; [|split]]]]].
  - intros Hempty. split; [|split; [|split]].
    + intros column direction. unfold order_by. by rewrite bool_decide_true.
    + intros sql bindings b' Hcall.
      apply Hraw, same_members_fields in Hcall as (_ & _ & Ho & _ & _ & Huo).
      rewrite bool_decide_true in Ho, Huo by done. done.
    + intros val. unfold offset. by rewrite bool_decide_true.
    + intros val. unfold limit.
      rewrite (bool_decide_true (unions_ b = [])) by done.
      by destruct (bool_decide (0 ≤ val)).
  - intros Hunions. split; [|split; [|split]].
    + intros column direction. unfold order_by. by rewrite bool_decide_false.
    + intros sql bindings b' Hcall.
      apply Hraw, same_members_fields in Hcall as (_ & _ & Ho & _ & _ & Huo).
      rewrite bool_decide_false in Ho, Huo by done. done.
    + intros val. unfold offset. by rewrite bool_decide_false.
    + intros val. unfold limit.
      rewrite (bool_decide_false (unions_ b = [])) by done.
      by destruct (bool_decide (0 ≤ val)).
  - intros query all b'. unfold _union.
    destruct (get_bindings query) as [bindings query'].
    destruct (add_bindings b bindings "union") as [b1|msg]; simpl; [|done].
    intros [= <-]. simpl. by destruct (unions_ b1).
  - intros column direction. unfold order_by.
    by destruct (bool_decide (unions_ b = [])).
  - intros sql bindings b' Hcall.
    apply Hraw, same_members_fields in Hcall as (_ & _ & _ & _ & Hu & _).
    rewrite Hu. by destruct (bool_decide (unions_ b = [])).
  - intros val. unfold offset. by destruct (bool_decide (unions_ b = [])).
  - intros val. unfold limit.
    by destruct (bool_decide (0 ≤ val)), (bool_decide (unions_ b = [])).
Qed.

Lemma union_routes_order_limit_offset_witness :
  (* without a union *)
  orders_ (order_by (Builder_new plain_grammar) "name" "asc")
    = [column_order "name" "asc"]
  ∧ limit_ (limit (Builder_new plain_grammar) 5) = 5
  ∧ offset_ (offset (Builder_new plain_grammar) 10) = 10
  (* after a union *)
  ∧ _union (Builder_new plain_grammar) (Builder_new plain_grammar) false
    = Ok union_query
  ∧ unions_ union_query ≠ []
  ∧ union_orders_ (order_by union_query "name" "asc") = [column_order "name" "asc"]
  ∧ orders_ (order_by union_query "name" "asc") = []
  ∧ union_limit_ (limit union_query 5) = 5
  ∧ limit_ (limit union_query 5) = -1
  ∧ union_offset_ (offset union_query 10) = 10
  ∧ offset_ (offset union_query 10) = -1.
Proof.
  assert (_union (Builder_new plain_grammar) (Builder_new plain_grammar) false
          = Ok union_query) as Hunion by (vm_compute; reflexivity).
  destruct (union_routes_order_limit_offset (Builder_new plain_grammar))
    as (Hbase & _ & Hunited & _).
  destruct Hbase as (Horder & _ & Hoffset & Hlimit); [reflexivity|].
  pose proof (Hunited _ _ _ Hunion) as Hunions.
  destruct (union_routes_order_limit_offset union_query) as (_ & Hrouted & _).
  destruct (Hrouted Hunions) as (Huorder & _ & Huoffset & Hulimit).
  split; [apply Horder|]. split; [apply Hlimit|]. split; [apply Hoffset|].
  split; [exact Hunion|]. split; [exact Hunions|].
  split; [apply Huorder|]. split; [apply Huorder|].
  split; [apply Hulimit|]. split; [apply Hulimit|].
  split; [apply Huoffset | apply Huoffset].
Defined.

(** ** C7 *)

(** What [clear] resets: every member but the table, the operator list and
    the grammar, whose table prefix is emptied. *)
Lemma clear_resets b :
  clear b
  = set_from_ (from_ b)
      (set_operators_ (operators_ b)
         (Builder_new (set_table_prefix "" (grammar_ b)))).
Proof. reflexivity. Qed.

(** C7.  The claim that [clear] leaves the builder equal to a new one, the
    table reset to its initial empty value, is broken by [clear] itself,
    which never assigns [from_]: a builder on the table users still is on it
    after [clear], whereas every clause sequence, bucket, limit, offset, lock
    and aggregate is reset. *)
Theorem clear_keeps_from_table :
  from_ (clear (set_from_ "users" (Builder_new plain_grammar))) = "users"
  ∧ from_ (Builder_new plain_grammar) = ""
  ∧ clear (set_from_ "users" (Builder_new plain_grammar))
    ≠ Builder_new plain_grammar
  ∧ clear (set_from_ "users" (Builder_new plain_grammar))
    = set_from_ "users" (Builder_new plain_grammar).
Proof.
  split; [reflexivity|]. split; [reflexivity|]. split; [|reflexivity].
  intros Hequal. apply (f_equal from_) in Hequal. discriminate Hequal.
Qed.

(** ** C8 *)

(** The bindings [insert] hands to the connection are those of the first
    record alone. *)
Lemma insert_bindings `{ConnectionInterface} b first rest :
  insert b (first :: rest)
  = connection_insert (compile_insert b (first :: rest)) (flattened [first]).
Proof.
  unfold insert, flattened. rewrite bind_singleton. reflexivity.
Qed.

(** For a single record they are the flattening, one for each placeholder. *)
Lemma insert_single_record `{ConnectionInterface} b record :
  insert b [record]
  = connection_insert (compile_insert b [record]) (flattened [record])
  ∧ placeholders (compile_insert b [record]) = length (flattened [record]).
Proof.
  split; [apply insert_bindings|].
  unfold compile_insert, flattened. rewrite bind_singleton.
  cbn [fmap list_fmap mjoin list_join].
  rewrite !placeholders_app, placeholders_text.
  rewrite (placeholders_parameters snd).
  assert (∀ names : list string, placeholders (sql_identifier <$> names) = 0%nat)
    as Hnames.
  { induction names as [|n names IH]; [done|].
    by rewrite fmap_cons, placeholders_identifier. }
  rewrite list_fmap_compose, Hnames.
  change (placeholders [wrap_table _ _; sql_text "("]) with 0%nat.
  change (placeholders []) with 0%nat.
  rewrite !placeholders_text. change (placeholders []) with 0%nat. lia.
Qed.

(** C8.  The claim that [insert] hands over the flattening of all records is
    broken by [insert], which collects the values of the first record only:
    for the records {a: 1} and {a: 2} the connection receives the single
    binding 1 with a statement of two placeholders, where the flattening is
    1, 2. *)
Theorem insert_binds_first_record_only `{ConnectionInterface} (b : Builder) :
  insert b two_records
  = connection_insert (compile_insert b two_records) [variable_of_int32 1]
  ∧ flattened two_records = [variable_of_int32 1; variable_of_int32 2]
  ∧ placeholders (compile_insert b two_records) = 2%nat.
Proof.
  split; [|split].
  - unfold two_records. rewrite insert_bindings. reflexivity.
  - reflexivity.
  - unfold compile_insert, wrap_table. by destruct (is_expression _).
Qed.

(** ** C9 *)

(** C9, as stated, fails: when the aggregate query yields no row,
    [aggregate("count", {"*"})] returns the unset value, which is empty, and
    not the integer zero, which is not. *)
Lemma aggregate_without_rows_is_unset :
  @aggregate no_rows (Builder_new plain_grammar) "count" [variable_of_string "*"]
    = variable_unset
  ∧ @aggregate no_rows (Builder_new plain_grammar) "count" [variable_of_string "*"]
    ≠ variable_of_int32 0
  ∧ pf_support.empty variable_unset = true
  ∧ pf_support.empty (variable_of_int32 0) = false.
Proof. split; [reflexivity|]. split; [discriminate|]. split; reflexivity. Qed.

(** A textual result without a decimal point is converted to an integer and
    then, as an operand of the conditional expression, to a real: the value
    returned is built from a [double]. *)
Lemma numeric_aggregate_of_integer_text `{ConnectionInterface} `{NumericConversions}
    b function columns :
  let result := aggregate b function columns in
  pf_support.empty result = false →
  type result = kVariableTypeString →
  pf_support.contains (data result) "." = false →
  numeric_aggregate b function columns
  = variable_of_double (double_of_int32 (get_int32 result)).
Proof.
  intros result Hempty Htype Hpoint. unfold numeric_aggregate. fold result.
  rewrite Hempty, Htype, Hpoint. by rewrite bool_decide_true.
Qed.

(** C9 (amended).  When the executed aggregate query yields no rows,
    [aggregate] returns the unset, empty value and not an error, and
    [numeric_aggregate] returns 0.  When the first row has an aggregate
    column that is not empty, [aggregate] returns it; [numeric_aggregate]
    returns it as it is when it is not textual, and coerces it to a real
    when it is textual and contains a decimal point. *)
Theorem aggregate_of_rows `{ConnectionInterface} `{NumericConversions}
    (b : Builder) (function : string) (columns : variable_array_t) :
  let results := (get (aggregate_query b function columns) columns).1 in
  (results = [] →
     aggregate b function columns = variable_unset
     ∧ pf_support.empty (aggregate b function columns) = true
     ∧ numeric_aggregate b function columns = variable_of_int32 0)
  ∧ (∀ result,
       fetch_get results 0 "aggregate" = Some result →
       pf_support.empty result = false →
       aggregate b function columns = result
       ∧ (type result ≠ kVariableTypeString →
            numeric_aggregate b function columns = result)
       ∧ (type result = kVariableTypeString →
            pf_support.contains (data result) "." = true →
            numeric_aggregate b function columns
            = variable_of_double (get_double result))).
Proof.
  intros results. split.
  - intros Hnone.
    assert (aggregate b function columns = variable_unset) as Haggregate.
    { unfold aggregate. fold results. by rewrite Hnone. }
    unfold numeric_aggregate. by rewrite Haggregate.
  - intros result Hresult Hempty.
    assert (aggregate b function columns = result) as Haggregate.
    { unfold aggregate. fold results. by rewrite Hresult. }
    unfold numeric_aggregate. rewrite Haggregate, Hempty.
    split; [done|]. split.
    + intros Htype. by rewrite bool_decide_false.
    + intros Htype Hpoint. by rewrite bool_decide_true, Hpoint.
Qed.

Lemma aggregate_of_rows_witness :
  (* no row *)
  @aggregate no_rows (Builder_new plain_grammar) "count" [variable_of_string "*"]
    = variable_unset
  ∧ @numeric_aggregate no_rows textual_numbers (Builder_new plain_grammar)
      "count" [variable_of_string "*"] = variable_of_int32 0
  (* the text 3.5 *)
  ∧ @numeric_aggregate (one_row (variable_of_string "3.5")) textual_numbers
      (Builder_new plain_grammar) "avg" [variable_of_string "price"]
    = {| type := kVariableTypeDouble; data := "3.5" |}
  (* the integer 7 *)
  ∧ @numeric_aggregate (one_row (variable_of_int32 7)) textual_numbers
      (Builder_new plain_grammar) "max" [variable_of_string "votes"]
    = variable_of_int32 7.
Proof.
  destruct (@aggregate_of_rows no_rows textual_numbers
              (Builder_new plain_grammar) "count" [variable_of_string "*"])
    as [Hnone _].
  destruct Hnone as (Hunset & _ & Hzero); [reflexivity|].
  destruct (@aggregate_of_rows (one_row (variable_of_string "3.5")) textual_numbers
              (Builder_new plain_grammar) "avg" [variable_of_string "price"])
    as [_ Hreal].
  destruct (Hreal (variable_of_string "3.5")) as (_ & _ & Hcoerced);
    [reflexivity | reflexivity |].
  destruct (@aggregate_of_rows (one_row (variable_of_int32 7)) textual_numbers
              (Builder_new plain_grammar) "max" [variable_of_string "votes"])
    as [_ Hinteger].
  destruct (Hinteger (variable_of_int32 7)) as (_ & Hasis & _);
    [reflexivity | reflexivity |].
  split; [exact Hunset|]. split; [exact Hzero|].
  split; [apply Hcoerced; reflexivity | apply Hasis; discriminate].
Defined.

(** ** C10 *)

Lemma get_builder `{ConnectionInterface} b columns :
  (get b columns).2
  = set_columns_ (columns_ b)
      (get_bindings
         (if bool_decide (columns_ b = []) then set_columns_ columns b else b)).2.
Proof.
  unfold get, run_select.
  by destruct (get_bindings _) as [bindings b1].
Qed.

Lemma get_bindings_set_columns_ columns b :
  (get_bindings (set_columns_ columns b)).1 = (get_bindings b).1.
Proof. by rewrite !get_bindings_flat. Qed.

(** With the six buckets of the constructor [get] returns the builder as it
    found it. *)
Lemma get_leaves_builder `{ConnectionInterface} b columns :
  buckets_present b → (get b columns).2 = b.
Proof.
  intros Hpresent. rewrite get_builder.
  case_bool_decide; rewrite get_bindings_present by done; by destruct b.
Qed.

(** C10.  [get(cols)] leaves the stored select-column list as it was.  When
    the stored list is empty, [cols] is the column list of this one
    compilation and the empty list is stored again afterwards; when it is
    not, [cols] is ignored and the statement is compiled from the stored
    list.  Every other member is untouched: all but the binding store are
    equal, and every bucket of the store holds the same values. *)
Theorem get_restores_columns `{ConnectionInterface} (b : Builder)
    (columns : variable_array_t) :
  columns_ (get b columns).2 = columns_ b
  ∧ (get b columns).1
    = connection_select
        (compile_select
           (if bool_decide (columns_ b = []) then set_columns_ columns b else b))
        (get_bindings b).1
  ∧ untouched b (get b columns).2.
Proof.
  split; [by rewrite get_builder|]. split.
  - unfold get, run_select, to_sql.
    pose proof (get_bindings_set_columns_ columns b) as Hsame.
    case_bool_decide.
    + destruct (get_bindings (set_columns_ columns b)) as [bindings b1].
      simpl in *. by rewrite Hsame.
    + by destruct (get_bindings b) as [bindings b1].
  - rewrite get_builder.
    set (b0 := if bool_decide (columns_ b = []) then set_columns_ columns b else b).
    destruct (get_bindings_untouched b0) as [Hmembers Hbuckets].
    assert (bindings_ b0 = bindings_ b ∧ set_columns_ (columns_ b) b0 = b)
      as [Hbindings Hb0].
    { unfold b0. case_bool_decide; by destruct b. }
    split.
    + unfold untouched, same_members.
      transitivity (set_columns_ (columns_ b)
                      (set_bindings_ (bindings_ b0) (get_bindings b0).2)).
      * by rewrite Hbindings.
      * by rewrite Hmembers.
    + intros name. unfold bucket in *. simpl. rewrite <- Hbindings.
      apply Hbuckets.
Qed.

(** * Further properties of the builder *)

(** ** The binding store *)

Lemma set_bindings__id b : set_bindings_ (bindings_ b) b = b.
Proof. by destruct b. Qed.

Lemma bucket_lookup b name held :
  bindings_ b !! name = Some held → bucket b name = held.
Proof. unfold bucket. by intros ->. Qed.

(** X1.  [set_bindings], [add_bindings] and [add_binding] are a usage error,
    naming the type, exactly when the store has no bucket of that name;
    otherwise [set_bindings] replaces the bucket, [add_bindings] and
    [add_binding] append to it in order, and every other bucket and every
    other member stay as they are. *)
Theorem binding_store_update (b : Builder) (vals : variable_array_t)
    (val : variable_t) (name : string) :
  match bindings_ b !! name with
  | None =>
      set_bindings b vals name = AssertEx ("Invalid binding type: " +:+ name)
      ∧ add_bindings b vals name = AssertEx ("Invalid binding type: " +:+ name)
      ∧ add_binding b val name = AssertEx ("Invalid binding type: " +:+ name)
  | Some held =>
      ∃ b1 b2 b3,
        set_bindings b vals name = Ok b1
        ∧ add_bindings b vals name = Ok b2
        ∧ add_binding b val name = Ok b3
        ∧ bucket b1 name = vals
        ∧ bucket b2 name = held ++ vals
        ∧ bucket b3 name = held ++ [val]
        ∧ Forall (λ b', same_members b b'
                        ∧ ∀ name', name' ≠ name → bucket b' name' = bucket b name')
                 [b1; b2; b3]
  end.
Proof.
  unfold set_bindings, add_bindings, add_binding.
  destruct (bindings_ b !! name) as [held|] eqn:Hheld; [|done].
  do 3 eexists. do 3 (split; [reflexivity|]).
  rewrite !bucket_insert, !decide_True by done.
  do 3 (split; [done|]).
  assert (∀ held',
            same_members b (set_bindings_ (<[name := held']> (bindings_ b)) b)
            ∧ ∀ name', name' ≠ name →
                bucket (set_bindings_ (<[name := held']> (bindings_ b)) b) name'
                = bucket b name') as Hframe.
  { intros held'. split; [apply same_members_set_bindings_|].
    intros name' Hne. by rewrite bucket_insert, decide_False. }
  repeat constructor; apply Hframe.
Qed.

(** X2.  Appending composes: binding a concatenation is binding its parts one
    after the other, and binding one value is binding the list of it; a
    bucket set twice holds what it was set to last.  This holds with the
    error outcome too. *)
Theorem add_bindings_compose (b : Builder) (xs ys : variable_array_t)
    (val : variable_t) (name : string) :
  add_bindings b (xs ++ ys) name
    = (b' ← add_bindings b xs name; add_bindings b' ys name)
  ∧ add_binding b val name = add_bindings b [val] name
  ∧ (b' ← set_bindings b xs name; set_bindings b' ys name)
    = set_bindings b ys name
  ∧ (b' ← set_bindings b xs name; add_bindings b' ys name)
    = set_bindings b (xs ++ ys) name.
Proof.
  unfold set_bindings, add_bindings, add_binding.
  destruct (bindings_ b !! name) as [held|] eqn:Hheld; [|done].
  simpl. rewrite !lookup_insert_eq, !insert_insert_eq, app_assoc.
  by repeat split.
Qed.

(** The loop of [get_bindings] leaves a bucket under every name it went
    through, and keeps the buckets that were there. *)
Lemma get_bindings_loop_creates keys : ∀ r b name,
  name ∈ keys ∨ is_Some (bindings_ b !! name) →
  is_Some
    (bindings_
       (foldl (λ (acc : variable_array_t * Builder) name,
                 let '(held, b') := bindings_at name acc.2 in
                 (acc.1 ++ held, b'))
              (r, b) keys).2 !! name).
Proof.
  induction keys as [|key keys IH]; intros r b name Hname; simpl.
  - destruct Hname as [Hin|Hsome]; [by apply elem_of_nil in Hin | done].
  - assert (∀ name', name' = key ∨ is_Some (bindings_ b !! name') →
                     is_Some (bindings_ (bindings_at key b).2 !! name'))
      as Hstep.
    { intros name' Hname'. unfold bindings_at.
      destruct (bindings_ b !! key) as [held|] eqn:Hkey; simpl.
      - destruct Hname' as [->|Hsome]; [rewrite Hkey; eauto | done].
      - apply lookup_insert_is_Some.
        destruct Hname' as [->|Hsome]; [by left|].
        destruct (decide (key = name')); [by left | by right]. }
    destruct (bindings_at key b) as [held b1]; simpl in *.
    apply IH. destruct Hname as [Hin|Hsome].
    + apply elem_of_cons in Hin as [->|Hin]; [right; apply Hstep; by left | by left].
    + right. apply Hstep. by right.
Qed.

Lemma get_bindings_repeat b : get_bindings (get_bindings b).2 = get_bindings b.
Proof.
  assert (bindings_ b = ∅ ∨ buckets_present (get_bindings b).2) as [Hempty|Hpresent].
  { unfold get_bindings. case_bool_decide; [by left|]. right.
    intros name Hname. apply get_bindings_loop_creates. by left. }
  - assert (get_bindings b = ([], b)) as Hsame.
    { unfold get_bindings. by rewrite bool_decide_true. }
    rewrite Hsame. simpl. by rewrite Hsame.
  - rewrite (surjective_pairing (get_bindings (get_bindings b).2)).
    rewrite (surjective_pairing (get_bindings b)) at 3.
    f_equal; [|by apply get_bindings_present].
    rewrite !get_bindings_flat.
    destruct (get_bindings_untouched b) as [_ Hbuckets].
    apply list_bind_ext; [|done]. intros name. apply Hbuckets.
Qed.

(** X3.  [get_bindings] can be repeated: a second call returns the same flat
    sequence and leaves the builder as the first call left it; and unless the
    store is empty, the six buckets are there after the first call. *)
Theorem get_bindings_twice (b : Builder) :
  get_bindings (get_bindings b).2 = get_bindings b
  ∧ (bindings_ b = ∅ ∨ buckets_present (get_bindings b).2).
Proof.
  split; [apply get_bindings_repeat|].
  unfold get_bindings. case_bool_decide; [by left|]. right.
  intros name Hname. apply get_bindings_loop_creates. by left.
Qed.

(** X4.  [clean_bindings_expression] keeps the values that are not raw
    expressions, all of them and in their order: nothing raw is left, what is
    left is a sublist, a value that is not raw is never dropped, and cleaning
    again changes nothing. *)
Theorem clean_bindings_expression_keeps_values (bindings : variable_array_t) :
  Forall (λ val, is_expression val = false) (clean_bindings_expression bindings)
  ∧ sublist (clean_bindings_expression bindings) bindings
  ∧ Forall (λ val, is_expression val = true
                   ∨ val ∈ clean_bindings_expression bindings) bindings
  ∧ clean_bindings_expression (clean_bindings_expression bindings)
    = clean_bindings_expression bindings
  ∧ ∀ more, clean_bindings_expression (bindings ++ more)
            = clean_bindings_expression bindings ++ clean_bindings_expression more.
Proof.
  unfold clean_bindings_expression, pf_support.array_filter.
  induction bindings as [|val bindings (IHraw & IHsub & IHkept & IHidem & IHapp)].
  - repeat split; constructor.
  - simpl. destruct (is_expression val) eqn:Hval; simpl.
    + split; [done|]. split; [by apply sublist_cons|].
      split; [constructor; [by left | done]|]. split; [done|].
      intros more. apply IHapp.
    + split; [by constructor|]. split; [by apply sublist_skip|].
      split.
      * constructor; [right; by left|].
        eapply Forall_impl; [exact IHkept|].
        intros v [Hraw|Hin]; [by left | right; by right].
      * rewrite Hval. simpl. split; [by rewrite IHidem|].
        intros more. by rewrite IHapp.
Qed.

(** ** Predicates *)

(** The loop of [where_in] binds like [add_bindings] on the values that are
    not raw, when the bucket is there. *)
Lemma add_each_binding_filtered vals : ∀ b name,
  is_Some (bindings_ b !! name) →
  add_each_binding b vals name
  = add_bindings b (clean_bindings_expression vals) name.
Proof.
  unfold clean_bindings_expression, pf_support.array_filter.
  induction vals as [|val vals IH]; intros b name [held Hheld]; simpl.
  - unfold add_bindings. rewrite Hheld, app_nil_r, insert_id by done.
    by rewrite set_bindings__id.
  - destruct (is_expression val); simpl; [apply IH; eauto|].
    unfold add_binding. rewrite Hheld. simpl.
    rewrite IH by (simpl; rewrite lookup_insert_eq; eauto).
    unfold add_bindings. simpl.
    by rewrite Hheld, lookup_insert_eq, insert_insert_eq, <- app_assoc.
Qed.

(** X5.  With a where bucket, [where_in] binds the values that are not raw
    expressions, in their order, behind what the bucket holds - as one call
    of [add_bindings] with the cleaned list would - and never fails. *)
Theorem where_in_binds_cleaned_values (b : Builder) (column : string)
    (vals : variable_array_t) (boolean : string) (isnot : bool)
    (Hbucket : is_Some (bindings_ b !! "where")) :
  where_in b column vals boolean isnot
  = add_bindings
      (push_where
         (in_where column (index_values 0 vals ∅) boolean isnot) b)
      (clean_bindings_expression vals) "where"
  ∧ ∃ b', where_in b column vals boolean isnot = Ok b'
          ∧ bucket b' "where"
            = bucket b "where" ++ clean_bindings_expression vals.
Proof.
  assert (where_in b column vals boolean isnot
          = add_bindings
              (push_where
                 (in_where column (index_values 0 vals ∅) boolean isnot) b)
              (clean_bindings_expression vals) "where") as Hcall.
  { unfold where_in. by apply add_each_binding_filtered. }
  split; [done|]. rewrite Hcall.
  destruct Hbucket as [held Hheld].
  unfold add_bindings. simpl. rewrite Hheld. eexists. split; [done|].
  rewrite bucket_insert, decide_True by done.
  unfold bucket. by rewrite Hheld.
Qed.

Lemma where_in_binds_cleaned_values_witness :
  is_Some (bindings_ (Builder_new plain_grammar) !! "where")
  ∧ ∃ b', where_in (Builder_new plain_grammar) "id"
            [variable_of_int32 1; raw_now; variable_of_int32 3] "and" false
            = Ok b'
          ∧ bucket b' "where" = [variable_of_int32 1; variable_of_int32 3].
Proof.
  assert (is_Some (bindings_ (Builder_new plain_grammar) !! "where")) as Hbucket
    by (vm_compute; eauto).
  split; [exact Hbucket|].
  destruct (where_in_binds_cleaned_values (Builder_new plain_grammar) "id"
              [variable_of_int32 1; raw_now; variable_of_int32 3] "and" false
              Hbucket) as (_ & b' & Hcall & Hwhere).
  exists b'. split; [exact Hcall | exact Hwhere].
Defined.

(** The walk of a map is in ascending order of the keys: an entry comes
    before whatever follows it. *)
Lemma StronglySorted_lookup {A} (R : relation A) l i j x y :
  StronglySorted R l → (i < j)%nat → l !! i = Some x → l !! j = Some y → R x y.
Proof.
  intros Hsorted. revert i j.
  induction Hsorted as [|z l _ IH Hz]; intros i j Hij Hi Hj; [done|].
  destruct j as [|j]; [lia|]. simpl in Hj. destruct i as [|i].
  - injection Hi as <-. rewrite Forall_forall in Hz.
    apply Hz. by eapply list_elem_of_lookup_2.
  - simpl in Hi. apply (IH i j); [lia | done | done].
Qed.

(** X6.  The in-clause [where_in] appends keeps every value, raw or not,
    under the decimal text of its position, so that no value replaces
    another.  The map is walked by key: up to ten values that is the order
    the values were given in; from eleven values on it is not, the key 10
    comes before the key 2. *)
Theorem where_in_keeps_values (b : Builder) (column : string)
    (vals : variable_array_t) (boolean : string) (isnot : bool) (b' : Builder)
    (Hcall : where_in b column vals boolean isnot = Ok b') :
  ∃ w,
    wheres_ b' = wheres_ b ++ [w]
    ∧ (∀ i, values w !! pretty i = vals !! i)
    ∧ size (values w) = length vals
    ∧ map_items (values w) ≡ₚ indexed_from 0 vals
    ∧ StronglySorted entry_le (map_items (values w))
    ∧ ((length vals ≤ 10)%nat → map_items (values w) = indexed_from 0 vals)
    ∧ ((10 < length vals)%nat → map_items (values w) ≠ indexed_from 0 vals)
    ∧ query w = None.
Proof.
  unfold where_in in Hcall.
  destruct (add_each_binding_Ok _ _ _ _ Hcall) as (Hsame & _).
  destruct (same_members_fields _ _ Hsame) as (Hwheres & _).
  eexists. split; [exact Hwheres|]. cbn [in_where values query].
  split; [apply index_values_lookup|].
  split.
  { rewrite index_values_indexed, map_size_list_to_map by apply NoDup_indexed_from.
    unfold indexed_from. by rewrite length_imap. }
  split; [apply map_items_index_values_Permutation|].
  split; [apply map_items_sorted|].
  split; [apply map_items_index_values|].
  split; [|done].
  intros Hlength Hwalk.
  pose proof (map_items_sorted (index_values 0 vals ∅)) as Hsorted.
  rewrite Hwalk in Hsorted.
  destruct (lookup_lt_is_Some_2 vals 2) as [val2 H2]; [lia|].
  destruct (lookup_lt_is_Some_2 vals 10) as [val10 H10]; [lia|].
  assert (entry_le ("2", val2) ("10", val10)) as Hle; [|done].
  apply (StronglySorted_lookup _ _ 2 10 _ _ Hsorted); [lia | |];
    unfold indexed_from; rewrite list_lookup_imap; [by rewrite H2 | by rewrite H10].
Qed.

Lemma where_in_keeps_values_witness :
  ∃ b' w,
    where_in (Builder_new plain_grammar) "id"
      [variable_of_int32 1; raw_now] "and" false = Ok b'
    ∧ wheres_ b' = [w]
    ∧ map_items (values w) = [("0", variable_of_int32 1); ("1", raw_now)].
Proof.
  assert (∃ b', where_in (Builder_new plain_grammar) "id"
                  [variable_of_int32 1; raw_now] "and" false = Ok b')
    as [b' Hcall] by (eexists; vm_compute; reflexivity).
  destruct (where_in_keeps_values _ _ _ _ _ _ Hcall)
    as (w & Hwheres & _ & _ & _ & _ & Hwalk & _).
  exists b', w. split; [exact Hcall|]. split; [exact Hwheres|].
  apply Hwalk. simpl. lia.
Defined.

(** ** Cleaning *)

(** X7.  [clean] never touches the binding store, whatever member it resets:
    after [clean("wheres")] the predicate list is empty and the where bucket
    still holds its values.  It never resets the union limit either: the name
    union_limit resets the union offset.  A name [clean] does not know
    changes nothing. *)
Theorem clean_keeps_bindings (b : Builder) (except : string) :
  bindings_ (clean b except) = bindings_ b
  ∧ union_limit_ (clean b except) = union_limit_ b
  ∧ wheres_ (clean b "wheres") = []
  ∧ union_offset_ (clean b "union_limit") = -1
  ∧ (except ∈ clean_names ∨ clean b except = b).
Proof.
  split; [|split; [|split; [|split]]].
  - unfold clean. by repeat case_bool_decide.
  - unfold clean. by repeat case_bool_decide.
  - reflexivity.
  - reflexivity.
  - unfold clean, clean_names.
    repeat (case_bool_decide as Hname;
            [left; rewrite <- Hname; compute_done | clear Hname]).
    by right.
Qed.

Lemma clean_bindings_lookup except : ∀ b name,
  bindings_ (clean_bindings b except) !! name
  = if bool_decide (name ∈ except) then Some [] else bindings_ b !! name.
Proof.
  unfold clean_bindings.
  induction except as [|key except IH]; intros b name.
  - by rewrite bool_decide_false by apply not_elem_of_nil.
  - simpl. rewrite IH. simpl.
    destruct (bool_decide (name ∈ except)) eqn:Hin.
    + apply bool_decide_eq_true in Hin.
      rewrite bool_decide_true; [done | by right].
    + apply bool_decide_eq_false in Hin.
      destruct (decide (key = name)) as [<-|Hne].
      * rewrite lookup_insert_eq. rewrite bool_decide_true; [done | by left].
      * rewrite lookup_insert_ne by done.
        rewrite bool_decide_false; [done|].
        intros [->|?]%elem_of_cons; done.
Qed.

Lemma clean_bindings_same_members except : ∀ b,
  same_members b (clean_bindings b except).
Proof.
  unfold clean_bindings.
  induction except as [|key except IH]; intros b; simpl.
  - apply same_members_refl.
  - eapply same_members_trans; [|apply IH]. apply same_members_set_bindings_.
Qed.

(** X8.  [clean_bindings] empties every bucket it is given and creates the
    ones that are not there; the other buckets and all other members stay as
    they are. *)
Theorem clean_bindings_empties (b : Builder) (except : list string) :
  (∀ name, bindings_ (clean_bindings b except) !! name
           = if bool_decide (name ∈ except) then Some [] else bindings_ b !! name)
  ∧ (∀ name, bucket (clean_bindings b except) name
             = if bool_decide (name ∈ except) then [] else bucket b name)
  ∧ Forall (λ name, ∀ val, is_Ok (add_binding (clean_bindings b except) val name)
                           = true) except
  ∧ same_members b (clean_bindings b except).
Proof.
  split; [apply clean_bindings_lookup|].
  split; [|split; [|apply clean_bindings_same_members]].
  - intros name. unfold bucket. rewrite clean_bindings_lookup.
    by destruct (bool_decide (name ∈ except)).
  - apply Forall_forall. intros name Hname val.
    unfold add_binding. rewrite clean_bindings_lookup.
    by rewrite bool_decide_true.
Qed.

(** ** Errors and shorthand of the predicate calls *)

Lemma having_resolved b column oper val boolean rval roper :
  resolved_value_and_operator b oper val boolean = Ok (rval, roper) →
  having b column oper val boolean =
    let b1 := set_havings_
      (havings_ b ++ [basic_having column roper rval boolean]) b in
    if negb (is_expression rval) then add_binding b1 rval "having" else Ok b1.
Proof.
  unfold resolved_value_and_operator, having.
  destruct (prepare_value_and_operator _ _ _ _) as [[v o]|msg]; simpl; [|done].
  destruct (invalid_operator b (data o)); by intros [= <- <-].
Qed.

Lemma resolved_is_Ok b oper val boolean :
  is_Ok (resolved_value_and_operator b oper val boolean)
  = is_Ok (prepare_value_and_operator b val oper
             (var_eq val "" && bool_decide ("and" = boolean))).
Proof.
  unfold resolved_value_and_operator.
  by destruct (prepare_value_and_operator _ _ _ _).
Qed.

Lemma prepare_is_Ok b oper val use_default :
  is_Ok (prepare_value_and_operator b val oper use_default)
  = use_default || negb (invalid_operator_and_value b oper val).
Proof.
  unfold prepare_value_and_operator.
  by destruct use_default, (invalid_operator_and_value b oper val).
Qed.

(** X9.  With the where and having buckets of the constructor, [where],
    [having] and the date-part predicates fail in one case only: the call is
    not the two-argument default and the operator and value are the illegal
    combination.  Every other call returns a builder. *)
Theorem predicates_fail_only_on_illegal_combination (b : Builder)
    (column : string) (oper val : variable_t) (boolean : string)
    (Hwhere : is_Some (bindings_ b !! "where"))
    (Hhaving : is_Some (bindings_ b !! "having")) :
  let legal :=
    var_eq val "" && bool_decide ("and" = boolean)
    || negb (invalid_operator_and_value b oper val) in
  is_Ok (where_ b column oper val boolean) = legal
  ∧ is_Ok (having b column oper val boolean) = legal
  ∧ ∀ kind, is_Ok (where_date_part kind b column (data oper) val boolean) = legal.
Proof.
  intros legal. destruct Hwhere as [held Hheld], Hhaving as [held' Hheld'].
  pose proof (resolved_is_Ok b oper val boolean) as Hresolved.
  rewrite prepare_is_Ok in Hresolved. fold legal in Hresolved.
  split; [|split].
  - destruct (resolved_value_and_operator b oper val boolean)
      as [[rval roper]|msg] eqn:Hpair.
    + rewrite (where_resolved _ _ _ _ _ _ _ Hpair), <- Hresolved.
      destruct (pf_support.empty rval); [done|]. cbn zeta.
      destruct (negb (is_expression _)); [|done].
      unfold add_binding. simpl. by rewrite Hheld.
    + rewrite <- Hresolved. unfold resolved_value_and_operator, where_ in *.
      by destruct (prepare_value_and_operator _ _ _ _).
  - destruct (resolved_value_and_operator b oper val boolean)
      as [[rval roper]|msg] eqn:Hpair.
    + rewrite (having_resolved _ _ _ _ _ _ _ Hpair), <- Hresolved. cbn zeta.
      destruct (negb (is_expression _)); [|done].
      unfold add_binding. simpl. by rewrite Hheld'.
    + rewrite <- Hresolved. unfold resolved_value_and_operator, having in *.
      by destruct (prepare_value_and_operator _ _ _ _).
  - intros kind. unfold where_date_part, add_date_based_where.
    pose proof (prepare_is_Ok b (variable_of_string (data oper)) val
                  (var_eq val "" && bool_decide ("and" = boolean))) as Hprepare.
    change (invalid_operator_and_value b (variable_of_string (data oper)) val)
      with (invalid_operator_and_value b oper val) in Hprepare.
    fold legal in Hprepare. rewrite <- Hprepare.
    destruct (prepare_value_and_operator _ _ _ _) as [[rval roper]|msg];
      simpl; [|done].
    unfold add_binding. simpl. by rewrite Hheld.
Qed.

Lemma predicates_fail_only_on_illegal_combination_witness :
  is_Some (bindings_ (Builder_new plain_grammar) !! "where")
  ∧ is_Some (bindings_ (Builder_new plain_grammar) !! "having")
  ∧ is_Ok (where_ (Builder_new plain_grammar) "age" (variable_of_string ">")
             (variable_of_int32 18) "and") = true
  ∧ is_Ok (having (Builder_new plain_grammar) "age" (variable_of_string ">")
             (variable_of_string "") "or") = false.
Proof.
  assert (is_Some (bindings_ (Builder_new plain_grammar) !! "where")) as Hwhere
    by (vm_compute; eauto).
  assert (is_Some (bindings_ (Builder_new plain_grammar) !! "having")) as Hhaving
    by (vm_compute; eauto).
  pose proof (predicates_fail_only_on_illegal_combination
                (Builder_new plain_grammar) "age" (variable_of_string ">")
                (variable_of_int32 18) "and" Hwhere Hhaving) as Hlegal.
  pose proof (predicates_fail_only_on_illegal_combination
                (Builder_new plain_grammar) "age" (variable_of_string ">")
                (variable_of_string "") "or" Hwhere Hhaving) as Hillegal.
  cbv zeta in Hlegal, Hillegal.
  destruct Hlegal as (Hlegal & _). destruct Hillegal as (_ & Hillegal & _).
  split; [exact Hwhere|]. split; [exact Hhaving|]. split.
  - rewrite Hlegal. vm_compute. reflexivity.
  - rewrite Hillegal. vm_compute. reflexivity.
Defined.

(** X10.  A call of [where] that returns appends exactly one clause - a
    comparison or a null test on the column, behind the connector given,
    without sub-query - and at most one binding, to the where bucket; the
    clauses and bindings already there and all other members stay. *)
Theorem where_appends_one_clause (b : Builder) (column : string)
    (oper val : variable_t) (boolean : string) (b' : Builder)
    (Hcall : where_ b column oper val boolean = Ok b') :
  ∃ w held,
    wheres_ b' = wheres_ b ++ [w]
    ∧ data (items w !!! "type") ∈ ["basic"; "null"; "notnull"]
    ∧ items w !! "column" = Some (variable_of_string column)
    ∧ items w !! "boolean" = Some (variable_of_string boolean)
    ∧ query w = None
    ∧ same_members (push_where w b) b'
    ∧ bucket b' "where" = bucket b "where" ++ held
    ∧ (length held ≤ 1)%nat
    ∧ Forall (λ bound, is_expression bound = false
                       ∧ items w !! "value" = Some bound) held
    ∧ ∀ name, name ≠ "where" → bucket b' name = bucket b name.
Proof.
  destruct (where_Ok _ _ _ _ _ _ Hcall)
    as [[isnot ->]|(roper & rval & [[Hraw ->]|[Hraw Hadd]])].
  - eexists _, []. split; [reflexivity|].
    split; [destruct isnot; compute_done|].
    split; [by simplify_map_eq|]. split; [by simplify_map_eq|].
    split; [done|]. split; [apply same_members_refl|].
    split; [by rewrite app_nil_r|]. split; [simpl; lia|]. by split.
  - exists (basic_where column roper rval boolean), [].
    split; [reflexivity|]. split; [compute_done|].
    split; [by unfold basic_where; simplify_map_eq|].
    split; [by unfold basic_where; simplify_map_eq|].
    split; [done|]. split; [apply same_members_refl|].
    split; [by rewrite app_nil_r|]. split; [simpl; lia|]. by split.
  - destruct (add_binding_Ok _ _ _ _ Hadd) as (Hsame & Hname & Hother).
    destruct (same_members_fields _ _ Hsame) as (Hwheres & _).
    exists (basic_where column roper rval boolean), [rval].
    split; [exact Hwheres|]. split; [compute_done|].
    split; [by unfold basic_where; simplify_map_eq|].
    split; [by unfold basic_where; simplify_map_eq|].
    split; [done|]. split; [exact Hsame|].
    split; [exact Hname|]. split; [simpl; lia|].
    split; [|exact Hother].
    constructor; [|done]. split; [done|].
    by unfold basic_where; simplify_map_eq.
Qed.

Lemma where_appends_one_clause_witness :
  where_ (Builder_new plain_grammar) "age" (variable_of_string ">")
    (variable_of_int32 18) "and" = Ok adults_query
  ∧ ∃ w, wheres_ adults_query = [w]
         ∧ bucket adults_query "where" = [variable_of_int32 18]
         ∧ items w !! "value" = Some (variable_of_int32 18).
Proof.
  assert (where_ (Builder_new plain_grammar) "age" (variable_of_string ">")
            (variable_of_int32 18) "and" = Ok adults_query) as Hcall
    by (vm_compute; reflexivity).
  split; [exact Hcall|].
  destruct (where_appends_one_clause _ _ _ _ _ _ Hcall)
    as (w & held & Hwheres & _ & _ & _ & _ & _ & Hbucket & Hlength & Hheld & _).
  exists w. split; [exact Hwheres|]. split; [reflexivity|].
  change (bucket adults_query "where") with [variable_of_int32 18] in Hbucket.
  change (bucket (Builder_new plain_grammar) "where")
    with (@nil variable_t) in Hbucket.
  simpl in Hbucket. subst held.
  apply Forall_inv in Hheld. apply Hheld.
Defined.

(** X11.  An operator argument that is no operator - neither of the builder
    nor of the grammar - is taken as the value of an equality, and the value
    argument is ignored: [where], [having] and [where_column] behave as the
    call with "=" and the operator argument in the place of the value. *)
Theorem operator_argument_taken_as_value (b : Builder) (column : string)
    (oper val : variable_t) (boolean : string)
    (Hinvalid : invalid_operator b (data oper) = true)
    (Hequals : invalid_operator b "=" = false)
    (Hvalue : pf_support.empty oper = false) :
  where_ b column oper val boolean
    = where_ b column (variable_of_string "=") oper boolean
  ∧ having b column oper val boolean
    = having b column (variable_of_string "=") oper boolean
  ∧ ∀ second,
      where_column b column (data oper) second boolean
      = where_column b column "=" (data oper) boolean.
Proof.
  assert (resolved_value_and_operator b oper val boolean
          = Ok (oper, variable_of_string "=")) as Hleft.
  { unfold resolved_value_and_operator, prepare_value_and_operator.
    destruct (var_eq val "" && bool_decide ("and" = boolean)); simpl.
    - by rewrite Hequals.
    - unfold invalid_operator_and_value.
      pose proof Hinvalid as Hboth. unfold invalid_operator in Hboth.
      apply andb_true_iff in Hboth as [Hbuilder Hgrammar].
      apply negb_true_iff in Hbuilder. rewrite Hbuilder.
      rewrite andb_false_r. simpl. unfold invalid_operator.
      rewrite Hbuilder. simpl. by rewrite Hgrammar. }
  assert (resolved_value_and_operator b (variable_of_string "=") oper boolean
          = Ok (oper, variable_of_string "=")) as Hright.
  { unfold resolved_value_and_operator, prepare_value_and_operator.
    change (var_eq oper "") with (pf_support.empty oper). rewrite Hvalue. simpl.
    unfold invalid_operator_and_value.
    change (pf_support.in_array (data (variable_of_string "=")) ["="; "<>"; "!="])
      with true.
    rewrite andb_false_r. simpl. by rewrite Hequals. }
  split; [|split].
  - by rewrite (where_resolved _ _ _ _ _ _ _ Hleft),
      (where_resolved _ _ _ _ _ _ _ Hright).
  - by rewrite (having_resolved _ _ _ _ _ _ _ Hleft),
      (having_resolved _ _ _ _ _ _ _ Hright).
  - intros second. unfold where_column. by rewrite Hinvalid, Hequals.
Qed.

Lemma operator_argument_taken_as_value_witness :
  where_ (Builder_new plain_grammar) "name" (variable_of_string "John")
    (variable_of_string "ignored") "or"
  = where_ (Builder_new plain_grammar) "name" (variable_of_string "=")
      (variable_of_string "John") "or".
Proof.
  apply (operator_argument_taken_as_value (Builder_new plain_grammar) "name"
           (variable_of_string "John") (variable_of_string "ignored") "or");
    reflexivity.
Defined.

(** ** Paging and ordering *)

(** X12.  The offset stored is never negative, and a limit once stored is
    never replaced by a negative one: of two calls of [offset] the last one
    counts, of two calls of [limit] the last one that is not negative; a
    limit that was not negative stays so. *)
Theorem paging_last_call_counts (b : Builder) (x y : Z) :
  0 ≤ routed_offset (offset b x)
  ∧ offset (offset b x) y = offset b y
  ∧ limit (limit b x) y = (if bool_decide (0 ≤ y) then limit b y else limit b x)
  ∧ (routed_limit b < 0 ∨ 0 ≤ routed_limit (limit b x)).
Proof.
  unfold routed_offset, routed_limit, offset, limit.
  destruct (bool_decide (unions_ b = [])) eqn:Hunions;
    destruct (bool_decide (0 ≤ x)) eqn:Hx;
    destruct (bool_decide (0 ≤ y)) eqn:Hy;
    simpl; rewrite ?Hunions, ?Hx, ?Hy; simpl;
    try apply bool_decide_eq_true in Hx;
    (split; [lia|]); (split; [done|]); (split; [done|]); lia.
Qed.

(** X13.  [enforce_order_by] raises exactly when the base and the union order
    lists are both empty; it never raises after [order_by] or [order_byraw],
    whichever list the order was routed to. *)
Theorem enforce_order_by_after_order_by (b : Builder) :
  is_Ok (enforce_order_by b)
    = negb (bool_decide (orders_ b = []) && bool_decide (union_orders_ b = []))
  ∧ (∀ column direction, enforce_order_by (order_by b column direction) = Ok ())
  ∧ (∀ sql bindings b', order_byraw b sql bindings = Ok b' →
       enforce_order_by b' = Ok ())
  ∧ is_Ok (enforce_order_by (clear b)) = false.
Proof.
  split; [|split; [|split]].
  - unfold enforce_order_by. by destruct (_ && _).
  - intros column direction. unfold enforce_order_by, order_by.
    destruct (bool_decide (unions_ b = [])); simpl.
    + by destruct (orders_ b).
    + destruct (union_orders_ b); simpl; by rewrite andb_false_r.
  - intros sql bindings b' Hcall. unfold order_byraw in Hcall.
    destruct (add_bindings_Ok _ _ _ _ Hcall) as (Hsame & _).
    destruct (same_members_fields _ _ Hsame) as (_ & _ & Ho & _ & _ & Huo).
    unfold enforce_order_by. rewrite Ho, Huo.
    destruct (bool_decide (unions_ b = [])); simpl.
    + by destruct (orders_ b).
    + destruct (union_orders_ b); simpl; by rewrite andb_false_r.
  - reflexivity.
Qed.

(** X14.  [_union] that returns appends exactly one union holding the
    sub-query, and appends the flat bindings of the sub-query to the union
    bucket; every other bucket, the predicates and the orders stay.  It is a
    usage error exactly when the store has no union bucket. *)
Theorem union_appends_query_and_bindings (b sub : Builder) (all : bool) :
  is_Ok (_union b sub all) = bool_decide (is_Some (bindings_ b !! "union"))
  ∧ ∀ b', _union b sub all = Ok b' →
      ∃ u, unions_ b' = unions_ b ++ [u]
           ∧ query u = Some (get_bindings sub).2
           ∧ items u !! "all" = Some (variable_of_bool all)
           ∧ bucket b' "union" = bucket b "union" ++ (get_bindings sub).1
           ∧ (∀ name, name ≠ "union" → bucket b' name = bucket b name)
           ∧ wheres_ b' = wheres_ b ∧ orders_ b' = orders_ b
           ∧ union_orders_ b' = union_orders_ b.
Proof.
  unfold _union. destruct (get_bindings sub) as [bindings sub'] eqn:Hsub.
  simpl. split.
  - unfold add_bindings. destruct (bindings_ b !! "union") as [held|].
    + by rewrite bool_decide_true by eauto.
    + by rewrite bool_decide_false by (by intros [? ?]).
  - intros b'.
    destruct (add_bindings b bindings "union") as [b1|msg] eqn:Hadd; simpl; [|done].
    intros [= <-].
    destruct (add_bindings_Ok _ _ _ _ Hadd) as (Hsame & Hname & Hother).
    destruct (same_members_fields _ _ Hsame) as (Hw & _ & Ho & _ & Hu & Huo).
    eexists. simpl. rewrite Hu. split; [reflexivity|]. simpl.
    split; [done|]. split; [by simplify_map_eq|].
    by repeat split.
Qed.

(** ** Merging *)

Lemma merge_wheres_loop bindings : ∀ b,
  let b' :=
    foldl (λ q binding,
             set_bindings_ (<["where" := bucket q "where" ++ [binding]]> (bindings_ q)) q)
          b bindings in
  same_members b b'
  ∧ (bindings_ b' !! "where" = bindings_ b !! "where" ∧ bindings = []
     ∨ bindings_ b' !! "where" = Some (bucket b "where" ++ bindings))
  ∧ ∀ name, name ≠ "where" → bindings_ b' !! name = bindings_ b !! name.
Proof.
  induction bindings as [|binding bindings IH]; intros b; simpl.
  - split; [apply same_members_refl|]. split; [by left | done].
  - destruct (IH (set_bindings_
                    (<["where" := bucket b "where" ++ [binding]]> (bindings_ b)) b))
      as (Hsame & Hwhere & Hother).
    split; [|split].
    + eapply same_members_trans; [|exact Hsame]. apply same_members_set_bindings_.
    + right. rewrite bucket_insert, decide_True in Hwhere by done.
      simpl in Hwhere. rewrite lookup_insert_eq in Hwhere.
      destruct Hwhere as [[-> ->] | ->]; [done | by rewrite <- app_assoc].
    + intros name Hne. rewrite Hother by done. simpl.
      by rewrite lookup_insert_ne.
Qed.

(** X15.  [merge_wheres] appends the clauses to the predicate list and the
    bindings to the where bucket, in order, and never fails: a where bucket
    that is not there is created.  The other buckets and members stay. *)
Theorem merge_wheres_appends (b : Builder)
    (wheres : list (db_query_array_t Builder)) (bindings : variable_array_t) :
  wheres_ (merge_wheres b wheres bindings) = wheres_ b ++ wheres
  ∧ bindings_ (merge_wheres b wheres bindings) !! "where"
    = Some (bucket b "where" ++ bindings)
  ∧ (∀ name, name ≠ "where" →
       bindings_ (merge_wheres b wheres bindings) !! name = bindings_ b !! name)
  ∧ same_members (set_wheres_ (wheres_ b ++ wheres) b)
      (merge_wheres b wheres bindings).
Proof.
  unfold merge_wheres.
  set (b0 := set_wheres_ (wheres_ b ++ wheres) b).
  assert (∃ b1, (let '(held, q) := bindings_at "where" b0 in
                 if bool_decide (held = [])
                 then set_bindings_ (<["where" := []]> (bindings_ q)) q
                 else q) = b1
                ∧ same_members b0 b1
                ∧ bindings_ b1 !! "where" = Some (bucket b "where")
                ∧ ∀ name, name ≠ "where" →
                    bindings_ b1 !! name = bindings_ b !! name)
    as (b1 & Hb1 & Hsame1 & Hwhere1 & Hother1).
  { eexists. split; [reflexivity|]. unfold bindings_at, bucket. simpl.
    destruct (bindings_ b !! "where") as [held|] eqn:Hheld; simpl.
    - destruct held as [|v held]; simpl.
      + split; [apply same_members_set_bindings_|].
        split; [by rewrite lookup_insert_eq|].
        intros name Hne. by rewrite lookup_insert_ne.
      + split; [apply same_members_refl|]. by split.
    - split; [apply (same_members_set_bindings_ _ b0)|]. simpl.
      split; [by rewrite lookup_insert_eq|].
      intros name Hne. by rewrite !lookup_insert_ne. }
  assert ((let '(held, q) := bindings_at "where" b0 in
           foldl (λ q binding,
                    set_bindings_
                      (<["where" := bucket q "where" ++ [binding]]> (bindings_ q)) q)
                 (if bool_decide (held = [])
                  then set_bindings_ (<["where" := []]> (bindings_ q)) q
                  else q) bindings)
          = foldl (λ q binding,
                     set_bindings_
                       (<["where" := bucket q "where" ++ [binding]]> (bindings_ q)) q)
                  b1 bindings) as ->.
  { rewrite <- Hb1. by destruct (bindings_at "where" b0). }
  destruct (merge_wheres_loop bindings b1) as (Hsame & Hwhere & Hother).
  destruct (same_members_fields _ _ Hsame) as (Hw & _).
  destruct (same_members_fields _ _ Hsame1) as (Hw1 & _).
  split; [by rewrite Hw, Hw1|]. split; [|split].
  - rewrite (bucket_lookup _ _ _ Hwhere1) in Hwhere.
    destruct Hwhere as [[-> ->] | ->]; [by rewrite app_nil_r | done].
  - intros name Hne. by rewrite Hother, Hother1.
  - by eapply same_members_trans.
Qed.

Lemma merge_bindings_loop entries : ∀ b,
  NoDup entries.*1 →
  (∀ entry, entry ∈ entries → is_Some (bindings_ b !! entry.1)) →
  ∃ b',
    foldl (λ (acc : result Builder) (entry : string * variable_array_t),
             q ← acc; add_bindings q entry.2 entry.1)
          (Ok b) entries = Ok b'
    ∧ same_members b b'
    ∧ ∀ name,
        bindings_ b' !! name
        = match list_to_map (M := gmap string variable_array_t) entries !! name with
          | Some vals => Some (bucket b name ++ vals)
          | None => bindings_ b !! name
          end.
Proof.
  induction entries as [|[key vals] entries IH]; intros b Hnodup Hpresent.
  - exists b. split; [done|]. split; [apply same_members_refl|].
    intros name. simpl. by rewrite lookup_empty.
  - apply NoDup_cons in Hnodup as [Hfresh Hnodup].
    destruct (Hpresent (key, vals)) as [held Hheld]; [by left|].
    simpl in Hheld. cbn [foldl]. simpl.
    unfold add_bindings at 2. rewrite Hheld.
    destruct (IH (set_bindings_ (<[key := held ++ vals]> (bindings_ b)) b))
      as (b' & Hfold & Hsame & Hlookup); [done | |].
    { intros entry Hentry. simpl. apply lookup_insert_is_Some'. right.
      apply Hpresent. by right. }
    exists b'. split; [exact Hfold|]. split.
    { eapply same_members_trans; [|exact Hsame]. apply same_members_set_bindings_. }
    intros name. rewrite Hlookup. simpl.
    destruct (decide (key = name)) as [<-|Hne].
    + rewrite lookup_insert_eq.
      rewrite (not_elem_of_list_to_map_1 _ key) by done.
      simpl. rewrite lookup_insert_eq. unfold bucket. by rewrite Hheld.
    + rewrite lookup_insert_ne by done.
      rewrite bucket_insert, decide_False by done.
      by rewrite lookup_insert_ne.
Qed.

(** X16.  [merge_bindings] appends every bucket of the other query to the
    bucket of the same name, provided the builder has a bucket for each: it
    returns a builder whose buckets hold the builder's values followed by the
    other query's, and whose flat sequence interleaves them bucket by
    bucket. *)
Theorem merge_bindings_appends_bucketwise (b other : Builder)
    (Hpresent : ∀ name, is_Some (bindings_ other !! name) →
                        is_Some (bindings_ b !! name)) :
  ∃ b',
    merge_bindings b other = Ok b'
    ∧ same_members b b'
    ∧ (∀ name, bucket b' name = bucket b name ++ bucket other name)
    ∧ (get_bindings b').1
      = DB_BINDING_KEYS ≫= (λ name, bucket b name ++ bucket other name).
Proof.
  destruct (merge_bindings_loop (map_items (bindings_ other)) b)
    as (b' & Hfold & Hsame & Hlookup).
  { apply NoDup_fst_map_items. }
  { intros [name vals] Hentry. apply elem_of_map_items in Hentry.
    apply Hpresent. simpl. eauto. }
  exists b'. split; [exact Hfold|]. split; [exact Hsame|].
  assert (∀ name, bucket b' name = bucket b name ++ bucket other name) as Hbuckets.
  { intros name. unfold bucket at 1. rewrite Hlookup, list_to_map_items.
    unfold bucket. destruct (bindings_ other !! name); simpl; [done|].
    by rewrite app_nil_r. }
  split; [exact Hbuckets|].
  rewrite get_bindings_flat. apply list_bind_ext; [|done]. exact Hbuckets.
Qed.

Lemma merge_bindings_appends_bucketwise_witness :
  ∃ b',
    merge_bindings adults_query adults_query = Ok b'
    ∧ (get_bindings b').1 = [variable_of_int32 18; variable_of_int32 18].
Proof.
  destruct (merge_bindings_appends_bucketwise adults_query adults_query)
    as (b' & Hcall & _ & _ & Hflat); [done|].
  exists b'. split; [exact Hcall|]. rewrite Hflat. reflexivity.
Defined.

(** ** Nested predicate groups *)

Lemma placeholders_tail_wheres sub_select sub_wheres ws :
  placeholders (tail (compile_wheres sub_select sub_wheres ws))
  = placeholders (compile_wheres sub_select sub_wheres ws).
Proof.
  unfold compile_wheres, compile_section.
  by destruct (mjoin (compile_where sub_select sub_wheres <$> ws)).
Qed.

(** X17.  [add_nested_where_query] does nothing for a query without
    predicates; otherwise, with a where bucket, it appends exactly one nested
    clause that owns the query and appends the flat bindings of the query to
    the where bucket. *)
Theorem add_nested_where_query_embeds (b sub : Builder) (boolean : string)
    (Hbucket : is_Some (bindings_ b !! "where")) :
  if bool_decide (wheres_ sub = []) then
    add_nested_where_query b sub boolean = Ok b
  else
    ∃ b',
      add_nested_where_query b sub boolean = Ok b'
      ∧ wheres_ b' = wheres_ b ++ [nested_where (get_bindings sub).2 boolean]
      ∧ wheres_ (get_bindings sub).2 = wheres_ sub
      ∧ bucket b' "where" = bucket b "where" ++ (get_bindings sub).1
      ∧ ∀ name, name ≠ "where" → bucket b' name = bucket b name.
Proof.
  unfold add_nested_where_query.
  destruct (bool_decide (wheres_ sub = [])); simpl; [done|].
  pose proof (get_bindings_untouched sub) as [Hsub _].
  destruct (get_bindings sub) as [bindings sub'] eqn:Hget. simpl in *.
  destruct Hbucket as [held Hheld].
  destruct (add_bindings b bindings "where") as [b1|msg] eqn:Hadd.
  - destruct (add_bindings_Ok _ _ _ _ Hadd) as (Hsame & Hname & Hother).
    destruct (same_members_fields _ _ Hsame) as (Hw & _).
    destruct (same_members_fields _ _ Hsub) as (Hwsub & _).
    eexists. split; [reflexivity|]. simpl. rewrite Hw.
    by repeat split.
  - unfold add_bindings in Hadd. by rewrite Hheld in Hadd.
Qed.

Lemma add_nested_where_query_embeds_witness :
  is_Some (bindings_ (Builder_new plain_grammar) !! "where")
  ∧ ∃ b',
      add_nested_where_query (Builder_new plain_grammar) adults_query "or" = Ok b'
      ∧ wheres_ b' = [nested_where adults_query "or"]
      ∧ bucket b' "where" = [variable_of_int32 18].
Proof.
  assert (is_Some (bindings_ (Builder_new plain_grammar) !! "where")) as Hbucket
    by (vm_compute; eauto).
  split; [exact Hbucket|].
  pose proof (add_nested_where_query_embeds (Builder_new plain_grammar)
                adults_query "or" Hbucket) as Hnested.
  change (bool_decide (wheres_ adults_query = [])) with false in Hnested.
  destruct Hnested as (b' & Hcall & Hwheres & _ & Hwhere & _).
  exists b'. split; [exact Hcall|]. split; [exact Hwheres | exact Hwhere].
Defined.

(** X18.  A nested group keeps bindings and placeholders in step: when the
    builder and the sub-query each bind exactly what they render and the
    sub-query has predicates only, the builder after
    [add_nested_where_query] again binds exactly what it renders - the
    bindings of the group sit where its parenthesized placeholders are. *)
Theorem nested_group_bound_as_rendered (b sub : Builder) (boolean : string)
    (b' : Builder)
    (Hb : bound_as_rendered b) (Hsub : bound_as_rendered sub)
    (Hhaving : bucket sub "having" = [])
    (Hcall : add_nested_where_query b sub boolean = Ok b') :
  bound_as_rendered b'
  ∧ binding_buckets b' = placeholder_buckets b'
  ∧ length (get_bindings b').1 = placeholders (compile_select b').
Proof.
  assert (bound_as_rendered b') as Hb'.
  { unfold add_nested_where_query in Hcall.
    destruct (bool_decide (wheres_ sub = [])); simpl in Hcall;
      [by injection Hcall as <-|].
    pose proof (get_bindings_untouched sub) as [Hsame_sub _].
    pose proof (get_bindings_flat sub) as Hflat.
    destruct (get_bindings sub) as [bindings sub'] eqn:Hget. simpl in *.
    destruct (add_bindings b bindings "where") as [b1|msg] eqn:Hadd;
      simpl in Hcall; [|done].
    injection Hcall as <-.
    destruct (add_bindings_Ok _ _ _ _ Hadd) as (Hsame & Hname & Hother).
    destruct (same_members_fields _ _ Hsame_sub) as (Hwsub & _).
    apply (bar_where_step b (nested_where sub' boolean) bindings); try done.
    - unfold same_members in *. rewrite <- Hsame at 2. by destruct b1.
    - unfold compile_where, nested_where. cbn [items values query].
      unfold lookup_total, map_lookup_total. simplify_map_eq.
      cbn [bool_decide decide_rel]. simpl.
      rewrite placeholders_text. unfold parenthesized. cbn [from_option].
      rewrite !placeholders_app, compile_nested_eq, placeholders_tail_wheres, Hwsub.
      destruct Hsub as [Bwhere _ _ Bselect Bjoin Border Bunion _ _ _].
      rewrite <- Bwhere, Bselect, Bjoin, Hhaving, Border, Bunion.
      change (placeholders [sql_text "("]) with 0%nat.
      change (placeholders [sql_text ")"]) with 0%nat.
      simpl. rewrite app_nil_r. lia. }
  split; [exact Hb'|].
  pose proof (bound_as_rendered_buckets b' Hb') as Hbuckets.
  split; [exact Hbuckets|].
  by rewrite <- binding_buckets_length, Hbuckets, placeholder_buckets_length.
Qed.

Lemma nested_group_bound_as_rendered_witness :
  ∃ b',
    add_nested_where_query (Builder_new plain_grammar) adults_query "or" = Ok b'
    ∧ binding_buckets b' = ["where"]
    ∧ placeholder_buckets b' = ["where"].
Proof.
  assert (∃ b', add_nested_where_query (Builder_new plain_grammar)
                  adults_query "or" = Ok b') as [b' Hcall]
    by (eexists; vm_compute; reflexivity).
  destruct (nested_group_bound_as_rendered (Builder_new plain_grammar)
              adults_query "or" b') as (_ & Hbuckets & _).
  - apply new_bound_as_rendered.
  - apply built_bound_as_rendered, adults_query_built.
  - reflexivity.
  - exact Hcall.
  - exists b'. split; [exact Hcall|].
    rewrite <- Hbuckets.
    assert (binding_buckets b' = ["where"]) as ->; [|done].
    vm_compute in Hcall. injection Hcall as <-. reflexivity.
Defined.

(** ** Orders of a column *)

Lemma order_column_visited item :
  order_column (order_column item).2 = order_column item
  ∧ (order_column item).2 !! "column" = Some (order_column item).1.
Proof.
  unfold order_column. destruct (item !! "column") as [c|] eqn:Hc; simpl.
  - by rewrite Hc.
  - by rewrite lookup_insert_eq.
Qed.

(** X19.  [remove_existing_orders_for] keeps the orders of the other columns,
    in their order, and none of the column given; a raw order, which has no
    column, is kept unless the column given is the empty text, and is left
    with an unset column entry in the builder.  The call can be repeated
    with the same outcome, and touches no member but the order list. *)
Theorem remove_existing_orders_for_drops_column (b : Builder) (column : string) :
  Forall (λ item, ∃ c, item !! "column" = Some c ∧ data c ≠ column)
         (remove_existing_orders_for b column).1
  ∧ sublist (remove_existing_orders_for b column).1
            (orders_ (remove_existing_orders_for b column).2)
  ∧ Forall (λ item, data (default variable_unset (item !! "column")) = column
                    ∨ (order_column item).2 ∈ (remove_existing_orders_for b column).1)
           (orders_ b)
  ∧ remove_existing_orders_for (remove_existing_orders_for b column).2 column
    = remove_existing_orders_for b column
  ∧ set_orders_ (orders_ b) (remove_existing_orders_for b column).2 = b.
Proof.
  unfold remove_existing_orders_for. simpl.
  split; [|split; [|split; [|split]]].
  - apply Forall_forall. intros item Hitem.
    apply list_elem_of_In, List.filter_In in Hitem as [Hin Hkeep].
    apply list_elem_of_In, list_elem_of_fmap in Hin as (item0 & -> & _).
    destruct (order_column_visited item0) as [Hsame Hcolumn].
    rewrite Hsame in Hkeep. exists (order_column item0).1. split; [done|].
    unfold var_eq in Hkeep. apply negb_true_iff, bool_decide_eq_false in Hkeep.
    done.
  - induction (orders_ b) as [|item items IH]; simpl; [constructor|].
    destruct (negb _); by constructor.
  - apply Forall_forall. intros item Hitem.
    destruct (decide (data (default variable_unset (item !! "column")) = column))
      as [Heq|Hne]; [by left|]. right.
    apply list_elem_of_In, List.filter_In. split.
    + apply list_elem_of_In, list_elem_of_fmap. eauto.
    + destruct (order_column_visited item) as [-> _].
      unfold var_eq. apply negb_true_iff, bool_decide_eq_false.
      unfold order_column. by destruct (item !! "column").
  - f_equal.
    + f_equal. rewrite <- list_fmap_compose. apply list_fmap_ext.
      intros i item _. simpl. by destruct (order_column_visited item) as [-> _].
    + assert (∀ items, (λ item, (order_column item).2)
                         <$> ((λ item, (order_column item).2) <$> items)
                       = (λ item, (order_column item).2) <$> items) as ->.
      { intros items. rewrite <- list_fmap_compose. apply list_fmap_ext.
        intros i item _. simpl. by destruct (order_column_visited item) as [-> _]. }
      by destruct b.
  - by destruct b.
Qed.

(** X20.  With [order_by] the two compose: while no union is there, the
    order just added for a column is removed with that column, and it is the
    last of the orders kept for any other column. *)
Theorem remove_existing_orders_for_after_order_by (b : Builder)
    (column direction : string) (Hunions : unions_ b = []) :
  (remove_existing_orders_for (order_by b column direction) column).1
    = (remove_existing_orders_for b column).1
  ∧ ∀ other, other ≠ column →
      (remove_existing_orders_for (order_by b column direction) other).1
      = (remove_existing_orders_for b other).1 ++ [column_order column direction].
Proof.
  unfold remove_existing_orders_for, order_by.
  rewrite bool_decide_true by done. simpl.
  assert (order_column (column_order column direction)
          = (variable_of_string column, column_order column direction)) as Horder.
  { unfold order_column, column_order. by simplify_map_eq. }
  split.
  - rewrite fmap_app, List.filter_app. cbn [fmap list_fmap List.filter].
    rewrite Horder. simpl. unfold var_eq at 2. simpl.
    rewrite Horder. simpl. rewrite bool_decide_true by done. simpl.
    by rewrite app_nil_r.
  - intros other Hne.
    rewrite fmap_app, List.filter_app. cbn [fmap list_fmap List.filter].
    rewrite Horder. simpl. rewrite Horder. unfold var_eq at 2. simpl.
    by rewrite bool_decide_false.
Qed.

Lemma remove_existing_orders_for_after_order_by_witness :
  unions_ (Builder_new plain_grammar) = []
  ∧ (remove_existing_orders_for
       (order_by (Builder_new plain_grammar) "name" "asc") "name").1 = []
  ∧ (remove_existing_orders_for
       (order_by (Builder_new plain_grammar) "name" "asc") "age").1
    = [column_order "name" "asc"].
Proof.
  destruct (remove_existing_orders_for_after_order_by (Builder_new plain_grammar)
              "name" "asc") as [Hsame Hother]; [reflexivity|].
  split; [reflexivity|]. split.
  - rewrite Hsame. reflexivity.
  - rewrite (Hother "age") by discriminate. reflexivity.
Defined.

(** ** Raw clauses *)

Lemma add_bindings_is_Ok b vals name :
  is_Ok (add_bindings b vals name) = bool_decide (is_Some (bindings_ b !! name)).
Proof.
  unfold add_bindings. destruct (bindings_ b !! name) as [held|].
  - by rewrite bool_decide_true by eauto.
  - by rewrite bool_decide_false by (by intros [? ?]).
Qed.


(** ** Aggregates *)

(** X22.  [set_aggregate] records the function and the columns joined by a
    comma and a blank.  Without groups it drops the base orders together with
    the bindings of the order bucket, which it creates if need be; with
    groups it keeps both.  It never touches the predicates, the union orders
    or any other bucket. *)
Theorem set_aggregate_drops_orders (b : Builder) (function : string)
    (columns : variable_array_t) :
  aggregate_ (set_aggregate b function columns) !! "function" = Some function
  ∧ aggregate_ (set_aggregate b function columns) !! "columns"
    = Some (String.concat ", " (data <$> columns))
  ∧ (if bool_decide (groups_ b = [])
     then orders_ (set_aggregate b function columns) = []
          ∧ bindings_ (set_aggregate b function columns) !! "order" = Some []
     else orders_ (set_aggregate b function columns) = orders_ b
          ∧ bindings_ (set_aggregate b function columns) = bindings_ b)
  ∧ wheres_ (set_aggregate b function columns) = wheres_ b
  ∧ union_orders_ (set_aggregate b function columns) = union_orders_ b
  ∧ groups_ (set_aggregate b function columns) = groups_ b
  ∧ ∀ name, name ≠ "order" →
      bindings_ (set_aggregate b function columns) !! name = bindings_ b !! name.
Proof.
  unfold set_aggregate. simpl.
  destruct (bool_decide (groups_ b = [])) eqn:Hgroups; simpl;
    rewrite ?lookup_insert_eq;
    repeat split; try done; try by simplify_map_eq.
  intros name Hne. by rewrite lookup_insert_ne.
Qed.

(** ** Running the query again *)

Lemma get_unfolded `{ConnectionInterface} b columns :
  get b columns
  = let b0 := if bool_decide (columns_ b = []) then set_columns_ columns b else b in
    (connection_select (compile_select b0) (get_bindings b0).1,
     set_columns_ (columns_ b) (get_bindings b0).2).
Proof.
  unfold get, run_select, to_sql. simpl.
  by destruct (get_bindings _) as [bindings b1].
Qed.

Lemma same_members_columns b b' : same_members b b' → columns_ b' = columns_ b.
Proof. intros <-. by destruct b'. Qed.

Lemma set_columns__id b : set_columns_ (columns_ b) b = b.
Proof. by destruct b. Qed.

(** X23.  [get] can be repeated: run again on the builder it returned, with
    the same columns, it hands the connection the same statement and the
    same bindings and returns the same builder. *)
Theorem get_twice `{ConnectionInterface} (b : Builder) (columns : variable_array_t) :
  get (get b columns).2 columns = get b columns.
Proof.
  rewrite !get_unfolded. cbn zeta. cbn [fst snd].
  set (b0 := if bool_decide (columns_ b = []) then set_columns_ columns b else b).
  destruct (get_bindings_untouched b0) as [Hsame _].
  pose proof (same_members_columns _ _ Hsame) as Hcolumns.
  change (columns_ (set_columns_ (columns_ b) (get_bindings b0).2))
    with (columns_ b).
  assert ((if bool_decide (columns_ b = [])
           then set_columns_ columns (set_columns_ (columns_ b) (get_bindings b0).2)
           else set_columns_ (columns_ b) (get_bindings b0).2)
          = (get_bindings b0).2) as ->.
  { unfold b0 in *. case_bool_decide.
    - change (set_columns_ columns (set_columns_ (columns_ b) ?x))
        with (set_columns_ columns x).
      simpl in Hcolumns. rewrite <- Hcolumns at 1. apply set_columns__id.
    - rewrite <- Hcolumns. apply set_columns__id. }
  rewrite get_bindings_repeat.
  by rewrite (compile_select_same_members _ _ Hsame).
Qed.

(** ** What the built states keep from the constructor *)

Lemma keeps_store_refl b : keeps_store b b.
Proof. by split. Qed.

Lemma keeps_store_trans b1 b2 b3 :
  keeps_store b1 b2 → keeps_store b2 b3 → keeps_store b1 b3.
Proof.
  intros [Ho12 Hb12] [Ho23 Hb23]. split; [by rewrite Ho23|].
  intros name Hname. by apply Hb23, Hb12.
Qed.

Lemma add_bindings_keeps_store b vals name b' :
  add_bindings b vals name = Ok b' → keeps_store b b'.
Proof.
  unfold add_bindings. destruct (bindings_ b !! name) as [held|]; [|done].
  intros [= <-]. split; [done|]. intros name' Hname'. simpl.
  apply lookup_insert_is_Some'. by right.
Qed.

Lemma add_each_binding_keeps_store vals : ∀ b name b',
  add_each_binding b vals name = Ok b' → keeps_store b b'.
Proof.
  induction vals as [|val vals IH]; intros b name b'; simpl.
  - intros [= <-]. apply keeps_store_refl.
  - destruct (is_expression val); simpl; [apply IH|].
    destruct (add_binding b val name) as [b1|msg] eqn:Hadd; [|done]. simpl.
    intros Hrest. eapply keeps_store_trans; [|by eapply IH].
    by apply (add_bindings_keeps_store b [val] name).
Qed.

(** X24.  The states built from a new builder by the predicate, having,
    grouping, ordering and paging calls keep what the constructor set up: the
    six buckets and the baseline operator list.  So no such call is ever a
    usage error for an unknown binding type, and "=" stays an operator. *)
Theorem built_keeps_buckets_and_operators (b : Builder) (Hbuilt : built b) :
  buckets_present b
  ∧ operators_ b = baseline_operators
  ∧ invalid_operator b "=" = false
  ∧ ∀ name val, name ∈ DB_BINDING_KEYS → is_Ok (add_binding b val name) = true.
Proof.
  assert (∃ grammar, keeps_store (Builder_new grammar) b) as [grammar [Hops Hkeys]].
  { induction Hbuilt as
      [ grammar
      | b column oper val boolean b' _ [g IH] Hcall
      | b column vals boolean isnot b' _ [g IH] Hcall
      | b column boolean isnot _ [g IH]
      | b _first oper second boolean _ [g IH]
      | b column low high boolean isnot b' _ [g IH] Hcall
      | kind b column oper val boolean b' _ [g IH] Hkind Hraw Hcall
      | b column oper val boolean b' _ [g IH] Hcall
      | b groups _ [g IH]
      | b column direction _ [g IH]
      | b val _ [g IH]
      | b val _ [g IH] ].
    - exists grammar. apply keeps_store_refl.
    - exists g. eapply keeps_store_trans; [exact IH|].
      destruct (where_Ok _ _ _ _ _ _ Hcall)
        as [[isnot ->]|(roper & rval & [[_ ->]|[_ Hadd]])];
        [by split | by split |].
      apply (add_bindings_keeps_store _ [rval] "where") in Hadd.
      destruct Hadd as [Ho Hb]. by split.
    - exists g. eapply keeps_store_trans; [exact IH|].
      unfold where_in in Hcall.
      apply add_each_binding_keeps_store in Hcall. destruct Hcall. by split.
    - exists g. eapply keeps_store_trans; [exact IH|]. by split.
    - exists g. eapply keeps_store_trans; [exact IH|].
      unfold where_column. by destruct (invalid_operator b oper).
    - exists g. eapply keeps_store_trans; [exact IH|].
      unfold where_between in Hcall.
      apply add_bindings_keeps_store in Hcall. destruct Hcall. by split.
    - exists g. eapply keeps_store_trans; [exact IH|].
      unfold where_date_part, add_date_based_where in Hcall.
      destruct (prepare_value_and_operator _ _ _ _) as [[rval roper]|msg];
        simpl in Hcall; [|done].
      apply (add_bindings_keeps_store _ [rval] "where") in Hcall.
      destruct Hcall. by split.
    - exists g. eapply keeps_store_trans; [exact IH|].
      destruct (having_Ok _ _ _ _ _ _ Hcall)
        as (roper & rval & [[_ ->]|[_ Hadd]]); [by split|].
      apply (add_bindings_keeps_store _ [rval] "having") in Hadd.
      destruct Hadd. by split.
    - exists g. eapply keeps_store_trans; [exact IH|]. by split.
    - exists g. eapply keeps_store_trans; [exact IH|].
      unfold order_by. by destruct (bool_decide (unions_ b = [])).
    - exists g. eapply keeps_store_trans; [exact IH|].
      unfold limit.
      by destruct (bool_decide (0 ≤ val)), (bool_decide (unions_ b = [])).
    - exists g. eapply keeps_store_trans; [exact IH|].
      unfold offset. by destruct (bool_decide (unions_ b = [])). }
  simpl in Hops.
  assert (buckets_present b) as Hpresent.
  { intros name Hname. apply Hkeys. simpl.
    unfold DB_BINDING_KEYS in Hname. rewrite !elem_of_cons, elem_of_nil in Hname.
    destruct Hname as [-> | [-> | [-> | [-> | [-> | [-> | []]]]]]];
      vm_compute; eauto. }
  split; [exact Hpresent|]. split; [exact Hops|]. split.
  - unfold invalid_operator. rewrite Hops. reflexivity.
  - intros name val Hname. unfold add_binding.
    by destruct (Hpresent name Hname) as [held ->].
Qed.

Lemma built_keeps_buckets_and_operators_witness :
  built adults_query
  ∧ buckets_present adults_query
  ∧ operators_ adults_query = baseline_operators.
Proof.
  split; [apply adults_query_built|].
  destruct (built_keeps_buckets_and_operators adults_query adults_query_built)
    as (Hpresent & Hoperators & _).
  split; [exact Hpresent | exact Hoperators].
Defined.

(** ** Having *)

(** X25.  A call of [having] that returns appends exactly one comparison with
    the resolved operator and value, and binds the value unless it is a raw
    expression.  Unlike [where] it has no null shortcut: an empty value is
    compared and bound like any other.  Predicates and the other buckets
    stay. *)
Theorem having_appends_one_clause (b : Builder) (column : string)
    (oper val : variable_t) (boolean : string) (b' : Builder)
    (Hcall : having b column oper val boolean = Ok b') :
  ∃ rval roper,
    resolved_value_and_operator b oper val boolean = Ok (rval, roper)
    ∧ havings_ b' = havings_ b ++ [basic_having column roper rval boolean]
    ∧ wheres_ b' = wheres_ b
    ∧ bucket b' "having"
      = bucket b "having" ++ (if is_expression rval then [] else [rval])
    ∧ ∀ name, name ≠ "having" → bucket b' name = bucket b name.
Proof.
  destruct (resolved_value_and_operator b oper val boolean)
    as [[rval roper]|msg] eqn:Hpair.
  - exists rval, roper. split; [done|].
    rewrite (having_resolved _ _ _ _ _ _ _ Hpair) in Hcall. cbn zeta in Hcall.
    destruct (is_expression rval); simpl in Hcall.
    + injection Hcall as <-. simpl. by rewrite app_nil_r.
    + destruct (add_binding_Ok _ _ _ _ Hcall) as (Hsame & Hname & Hother).
      destruct (same_members_fields _ _ Hsame) as (Hw & Hh & _).
      by rewrite Hw, Hh.
  - unfold resolved_value_and_operator, having in *.
    by destruct (prepare_value_and_operator _ _ _ _).
Qed.

Lemma having_appends_one_clause_witness :
  ∃ b',
    having (Builder_new plain_grammar) "total" (variable_of_string "=")
      (variable_of_string "") "or" = Ok b'
    ∧ havings_ b' = [basic_having "total" (variable_of_string "=")
                       (variable_of_string "") "or"]
    ∧ bucket b' "having" = [variable_of_string ""].
Proof.
  assert (∃ b', having (Builder_new plain_grammar) "total" (variable_of_string "=")
                  (variable_of_string "") "or" = Ok b') as [b' Hcall]
    by (eexists; vm_compute; reflexivity).
  destruct (having_appends_one_clause _ _ _ _ _ _ Hcall)
    as (rval & roper & Hpair & Hhavings & _ & Hbucket & _).
  exists b'. split; [exact Hcall|].
  vm_compute in Hpair. injection Hpair as <- <-.
  split; [exact Hhavings | exact Hbucket].
Defined.

(** ** Sub-selects and joins *)

Lemma new_query_buckets_present b : buckets_present (new_query b).
Proof.
  intros name Hname. unfold new_query, DB_BINDING_KEYS in *. simpl.
  rewrite !elem_of_cons, elem_of_nil in Hname.
  destruct Hname as [-> | [-> | [-> | [-> | [-> | [-> | []]]]]]]; by eexists.
Qed.

Lemma get_bindings_new_query b : get_bindings (new_query b) = ([], new_query b).
Proof.
  apply injective_projections; simpl.
  - by rewrite get_bindings_flat.
  - apply get_bindings_present, new_query_buckets_present.
Qed.

(** X26.  [where_in_existing_query] does not embed the query it is given: the
    clause owns a new query made for the grammar of that query, without
    clauses and without bindings.  So the call adds no binding, the outcome is
    the same for any two queries of one grammar, and it is a usage error
    exactly when the where bucket is missing. *)
Theorem where_in_existing_query_drops_query (b : Builder) (column : string)
    (sub : Builder) (boolean : string) (isnot : bool) :
  is_Ok (where_in_existing_query b column sub boolean isnot)
    = bool_decide (is_Some (bindings_ b !! "where"))
  ∧ (∀ b', where_in_existing_query b column sub boolean isnot = Ok b' →
       ∃ w, wheres_ b' = wheres_ b ++ [w]
            ∧ query w = Some (Builder_new (grammar_ sub))
            ∧ items w !! "type"
              = Some (variable_of_string (if isnot then "not_insub" else "insub"))
            ∧ items w !! "column" = Some (variable_of_string column)
            ∧ items w !! "boolean" = Some (variable_of_string boolean)
            ∧ ∀ name, bucket b' name = bucket b name)
  ∧ (∀ other, grammar_ other = grammar_ sub →
       where_in_existing_query b column other boolean isnot
       = where_in_existing_query b column sub boolean isnot).
Proof.
  unfold where_in_existing_query. rewrite get_bindings_new_query.
  split; [|split].
  - rewrite <- add_bindings_is_Ok with (vals := []).
    by destruct (add_bindings b [] "where").
  - intros b'.
    destruct (add_bindings b [] "where") as [b1|msg] eqn:Hadd; simpl; [|done].
    intros [= <-].
    destruct (add_bindings_Ok _ _ _ _ Hadd) as (Hsame & Hname & Hother).
    destruct (same_members_fields _ _ Hsame) as (Hw & _).
    eexists. simpl. rewrite Hw. split; [reflexivity|].
    split; [reflexivity|]. cbn [insub_where items].
    split; [by simplify_map_eq|]. split; [by simplify_map_eq|].
    split; [by simplify_map_eq|].
    intros name. change (bucket b1 name = bucket b name).
    destruct (decide (name = "where")) as [->|Hne].
    + by rewrite Hname, app_nil_r.
    + by apply Hother.
  - intros other Hgrammar. rewrite get_bindings_new_query.
    unfold new_query. by rewrite Hgrammar.
Qed.

(** X27.  [where_insub] and [where_sub] run the callback on a new query and
    embed what it leaves: a fatal assertion of the callback is that of the
    call; otherwise the call returns exactly when the where bucket is there,
    appends one clause that owns the filled query, and adds the flat bindings
    of that query, all of its buckets, to the where bucket alone. *)
Theorem sub_select_embeds_filled_query (b : Builder) (column oper : string)
    (callback : closure_t) (boolean : string) (isnot : bool) :
  match callback (new_query b) with
  | AssertEx msg =>
      where_insub b column callback boolean isnot = AssertEx msg
      ∧ where_sub b column oper callback boolean = AssertEx msg
  | Ok sub =>
      is_Ok (where_insub b column callback boolean isnot)
        = bool_decide (is_Some (bindings_ b !! "where"))
      ∧ is_Ok (where_sub b column oper callback boolean)
        = bool_decide (is_Some (bindings_ b !! "where"))
      ∧ (∀ b', where_insub b column callback boolean isnot = Ok b'
               ∨ where_sub b column oper callback boolean = Ok b' →
           ∃ w, wheres_ b' = wheres_ b ++ [w]
                ∧ query w = Some (get_bindings sub).2
                ∧ data (items w !!! "type") ∈ ["insub"; "not_insub"; "sub"]
                ∧ items w !! "column" = Some (variable_of_string column)
                ∧ items w !! "boolean" = Some (variable_of_string boolean)
                ∧ bucket b' "where" = bucket b "where" ++ (get_bindings sub).1
                ∧ ∀ name, name ≠ "where" → bucket b' name = bucket b name)
  end.
Proof.
  unfold where_insub, where_sub.
  destruct (callback (new_query b)) as [sub|msg]; simpl; [|done].
  destruct (get_bindings sub) as [bindings q]. simpl.
  split; [|split].
  - rewrite <- add_bindings_is_Ok with (vals := bindings).
    by destruct (add_bindings b bindings "where").
  - rewrite <- add_bindings_is_Ok with (vals := bindings).
    by destruct (add_bindings b bindings "where").
  - intros b' Hcall.
    destruct (add_bindings b bindings "where") as [b1|msg] eqn:Hadd; simpl in Hcall;
      [|by destruct Hcall].
    destruct (add_bindings_Ok _ _ _ _ Hadd) as (Hsame & Hname & Hother).
    destruct (same_members_fields _ _ Hsame) as (Hw & _).
    destruct Hcall as [[= <-] | [= <-]]; eexists; simpl; rewrite Hw;
      (split; [reflexivity|]); (split; [reflexivity|]);
      unfold insub_where, sub_where; cbn [items];
      unfold lookup_total, map_lookup_total;
      (split; [destruct isnot; simplify_map_eq; compute_done|]);
      (split; [by simplify_map_eq|]); (split; [by simplify_map_eq|]);
      (split; [exact Hname | exact Hother]).
Qed.

(** X28.  [join] with a callback runs it on the conditions of a new join
    clause: a fatal assertion of the callback is that of the call; otherwise
    the call returns exactly when the join bucket is there, appends one join
    of the type and the table given that owns the conditions, and adds their
    flat bindings to the join bucket alone; the predicates of the query
    itself stay as they are. *)
Theorem join_embeds_conditions (b : Builder) (table : string)
    (callback : closure_t) (type : string) :
  match callback (new_query b) with
  | AssertEx msg => join b table callback type = AssertEx msg
  | Ok conditions =>
      is_Ok (join b table callback type)
        = bool_decide (is_Some (bindings_ b !! "join"))
      ∧ (∀ b', join b table callback type = Ok b' →
           ∃ j, joins_ b' = joins_ b ++ [j]
                ∧ join_type j = type
                ∧ join_table j = table
                ∧ join_builder j = (get_bindings conditions).2
                ∧ bucket b' "join" = bucket b "join" ++ (get_bindings conditions).1
                ∧ (∀ name, name ≠ "join" → bucket b' name = bucket b name)
                ∧ wheres_ b' = wheres_ b)
  end.
Proof.
  unfold join, JoinClause_new. cbn [join_builder join_type join_table].
  destruct (callback (new_query b)) as [conditions|msg]; simpl; [|done].
  destruct (get_bindings conditions) as [bindings q]. simpl.
  split.
  - rewrite <- add_bindings_is_Ok with (vals := bindings).
    by destruct (add_bindings b bindings "join").
  - intros b'.
    destruct (add_bindings b bindings "join") as [b1|msg] eqn:Hadd; simpl; [|done].
    intros [= <-].
    destruct (add_bindings_Ok _ _ _ _ Hadd) as (Hsame & Hname & Hother).
    destruct (same_members_fields _ _ Hsame) as (Hw & _ & _ & Hj & _).
    eexists. simpl. rewrite Hj. split; [reflexivity|]. simpl.
    by split_and!.
Qed.
